(** * t2kdm: storage elements, output shaping, replication and the result cache

    A shallow embedding of the Python sources [t2kdm/storage.py],
    [t2kdm/cache.py] and [t2kdm/backends.py], with the properties of their
    specification stated and proved (or refuted) on the embedding.

    Python [str] values are [string]s, keyword-argument dictionaries and the
    cache dictionary are [gmap]s, exceptions are the [Err] case of [result],
    and code with effects runs in a state-and-error monad. *)

From Stdlib Require Import ZArith Ascii String List Lia Bool.
From stdpp Require Import base option gmap strings list fin_maps.

Local Open Scope string_scope.
Local Open Scope Z_scope.

(** ** Python built-ins on [str] *)

Module Py.

(** The exceptions the modelled code can raise. *)
Inductive exn : Type :=
| IndexError
| AttributeError
| TypeError
| NotImplementedError
| ErrorReturnCode (code : Z) (message : string)
| ReError
| OutOfFuel
| PicklingError.

Inductive result (A : Type) : Type :=
| Ok (a : A)
| Err (e : exn).
Arguments Ok {A} a.
Arguments Err {A} e.

Definition newline : ascii := "010"%char.
Definition slash : ascii := "/"%char.

(** [s.startswith(p)] *)
Definition startswith (s p : string) : bool := String.prefix p s.

(** [s[-1]]; [None] stands for the [IndexError] on an empty string. *)
Fixpoint last_char (s : string) : option ascii :=
  match s with
  | EmptyString => None
  | String c EmptyString => Some c
  | String _ r => last_char r
  end.

(** [s.endswith(c)] for a one-character suffix. *)
Definition endswith_char (s : string) (c : ascii) : bool :=
  match last_char s with
  | Some d => Ascii.eqb d c
  | None => false
  end.

(** [s.count(c)] for a one-character needle. *)
Fixpoint count_char (c : ascii) (s : string) : nat :=
  match s with
  | EmptyString => 0%nat
  | String d r => ((if Ascii.eqb d c then 1 else 0) + count_char c r)%nat
  end.

(** [s.split(c)] for a one-character separator: never the empty list. *)
Fixpoint split_char (c : ascii) (s : string) : list string :=
  match s with
  | EmptyString => [EmptyString]
  | String d r =>
      if Ascii.eqb d c then EmptyString :: split_char c r
      else match split_char c r with
           | h :: t => String d h :: t
           | [] => [String d EmptyString]
           end
  end.

(** [needle in hay] on strings: [needle] occurs at some position of [hay]. *)
Fixpoint contains (hay needle : string) : bool :=
  String.prefix needle hay
  || match hay with
     | EmptyString => false
     | String _ r => contains r needle
     end.

(** The characters [str.strip()] removes. *)
Definition is_space (c : ascii) : bool :=
  let n := nat_of_ascii c in
  (Nat.eqb n 32 || (Nat.leb 9 n && Nat.leb n 13))%bool.

Fixpoint lstrip (s : string) : string :=
  match s with
  | EmptyString => EmptyString
  | String c r => if is_space c then lstrip r else s
  end.

Fixpoint rstrip (s : string) : string :=
  match s with
  | EmptyString => EmptyString
  | String c r =>
      match rstrip r with
      | EmptyString => if is_space c then EmptyString else String c EmptyString
      | r' => String c r'
      end
  end.

Definition strip (s : string) : string := rstrip (lstrip s).

(** [lines[:-1]] *)
Definition drop_last {A} (l : list A) : list A := removelast l.

(** [text = ""; for line in lines: text += line] *)
Fixpoint concat_lines (lines : list string) : string :=
  match lines with
  | [] => EmptyString
  | l :: r => l +:+ concat_lines r
  end.

End Py.

(** ** The functions of [posixpath] the sources call *)

Module posixpath.

(** [posixpath.join(a, b)]: an absolute [b] replaces [a]; otherwise the two
    are joined with exactly one separator between them. *)
Definition join (a b : string) : string :=
  if Py.startswith b "/" then b
  else if (String.eqb a "" || Py.endswith_char a Py.slash)%bool then a +:+ b
  else a +:+ "/" +:+ b.

(** [min(m)] and [max(m)] of a two-element list of strings. *)
Definition min2 (a b : string) : string := if String.ltb b a then b else a.
Definition max2 (a b : string) : string := if String.ltb a b then b else a.

(** The loop of [commonprefix]:
    [for i, c in enumerate(s1): if c != s2[i]: return s1[:i]], then [s1].
    [None] is the [IndexError] of [s2[i]]. *)
Fixpoint commonprefix_loop (s1 s2 : string) : option string :=
  match s1 with
  | EmptyString => Some EmptyString
  | String c r1 =>
      match s2 with
      | EmptyString => None
      | String d r2 =>
          if Ascii.eqb c d then String c <$> commonprefix_loop r1 r2
          else Some EmptyString
      end
  end.

(** [posixpath.commonprefix([a, b])] as the library computes it. *)
Definition commonprefix_impl (a b : string) : option string :=
  commonprefix_loop (min2 a b) (max2 a b).

(** [posixpath.commonprefix([a, b])]: the longest common prefix of the two
    strings, character by character ([commonprefix_impl_correct] relates it
    to the library's loop). *)
Fixpoint commonprefix (a b : string) : string :=
  match a, b with
  | String c r1, String d r2 =>
      if Ascii.eqb c d then String c (commonprefix r1 r2) else EmptyString
  | _, _ => EmptyString
  end.

(** The components of a location: its pieces between separators (the
    piece in front of a leading separator is empty). *)
Definition components (p : string) : list string :=
  Py.split_char Py.slash p.

(** The number of leading path components two locations have in common. *)
Fixpoint shared_leading (l1 l2 : list string) : nat :=
  match l1, l2 with
  | x :: r1, y :: r2 => if String.eqb x y then S (shared_leading r1 r2) else O
  | _, _ => O
  end.

Definition shared_components (a b : string) : nat :=
  shared_leading (components a) (components b).

End posixpath.

(** ** [storage.py] *)

Module storage.

Inductive se_type : Type := tape | disk.

Record StorageElement : Type := {
  name : string;
  host : string;
  type : se_type;
  location : string;
  basepath : string
}.

(** [StorageElement.get_storage_path] *)
Definition get_storage_path (self : StorageElement) (remotepath : string) : string :=
  posixpath.join (basepath self) remotepath.

(** [StorageElement.get_distance] *)
Definition get_distance (self other : StorageElement) : Z :=
  let common := posixpath.commonprefix (location self) (location other) in
  let distance := - Z.of_nat (Py.count_char Py.slash common) in
  distance.

Definition RAL_LCG22_tape : StorageElement :=
  {| name := "RAL-LCG22-tape";
     host := "srm-t2k.gridpp.rl.ac.uk";
     type := tape;
     location := "/europe/uk/ral";
     basepath := "srm://srm-t2k.gridpp.rl.ac.uk/castor/ads.rl.ac.uk/prod/t2k.org" |}.

Definition UKI_SOUTHGRID_RALPP_disk : StorageElement :=
  {| name := "UKI-SOUTHGRID-RALPP-disk";
     host := "heplnx204.pp.rl.ac.uk";
     type := disk;
     location := "/europe/uk/ral";
     basepath := "rm://heplnx204.pp.rl.ac.uk/pnfs/pp.rl.ac.uk/data/t2k/t2k.org" |}.

Definition CA_TRIUMF_T2K1_disk : StorageElement :=
  {| name := "CA-TRIUMF-T2K1-disk";
     host := "t2ksrm.nd280.org";
     type := disk;
     location := "/americas/ca/ubc";
     basepath := "srm://" |}.

Definition JP_KEK_CRC_02_disk : StorageElement :=
  {| name := "JP-KEK-CRC-02-disk";
     host := "kek2-se01.cc.kek.jp";
     type := disk;
     location := "/asia/jp/kek";
     basepath := "srm://" |}.

(** The module-level registry, in registration order. *)
Definition SEs : list StorageElement :=
  [RAL_LCG22_tape; UKI_SOUTHGRID_RALPP_disk; CA_TRIUMF_T2K1_disk; JP_KEK_CRC_02_disk].

(** The loop of [get_SE_by_path] over a registry:
    [for SE in SEs: if SE.host in path: return SE], then [return None]. *)
Fixpoint get_SE_by_path_in (registry : list StorageElement) (path : string)
  : option StorageElement :=
  match registry with
  | [] => None
  | SE :: rest =>
      if Py.contains path (host SE) then Some SE
      else get_SE_by_path_in rest path
  end.

(** [get_SE_by_path] *)
Definition get_SE_by_path (path : string) : option StorageElement :=
  get_SE_by_path_in SEs path.

End storage.

(** ** A state-and-error monad for the code with effects *)

Module Monad.
Export Py.

Definition M (S A : Type) : Type := S -> result A * S.

Definition ret {S A} (a : A) : M S A := fun s => (Ok a, s).

Definition bind {S A B} (m : M S A) (k : A -> M S B) : M S B :=
  fun s =>
    match m s with
    | (Ok a, s') => k a s'
    | (Err e, s') => (Err e, s')
    end.

Notation "x <- m ;; k" := (bind m (fun x => k))
  (at level 100, m at next level, k at level 200, right associativity,
   only parsing).

(** [raise e] *)
Definition raise {S A} (e : exn) : M S A := fun s => (Err e, s).

(** A pure computation that may raise. *)
Definition of_result {S A} (r : result A) : M S A := fun s => (r, s).

End Monad.

(** ** [cache.py] *)

Module cache.
Export Monad.

(** A state in which [time()] can be read. Times are integer ticks. *)
Class Clock (S : Type) := clock : S -> Z.

(** [time()] *)
Definition time {S} `{Clock S} : M S Z := fun s => (Ok (clock s), s).

(** The argument lists of the wrapped call, positional and keyword.
    [keywords] gives the names of the keyword arguments. [hash_dumps] is
    [hash(dumps((args, kwargs)))]: a deterministic function of the
    arguments, or the exception [dumps] raises for arguments that cannot
    be pickled. *)
Class Hashing (Args : Type) := {
  keywords : Args -> list string;
  hash_dumps : Args -> result Z
}.

(** A call of a method with the named parameters [params] that passes
    the argument lists on: a keyword argument named like one of the
    parameters makes the call a [TypeError] (multiple values for the
    parameter). *)
Definition clashes {Args} `{Hashing Args} (params : list string) (args : Args) : bool :=
  existsb (fun keyword => existsb (String.eqb keyword) params) (keywords args).

Definition bind_args {Args} `{Hashing Args} (params : list string) (args : Args)
  : result unit :=
  if clashes params args then Err TypeError else Ok tt.

Module CacheEntry.

(** The attributes of an entry. [creation_time] is [None] when the
    attribute was never assigned. *)
Record t (V : Type) : Type := {
  value : V;
  creation_time : option Z;
  cache_time : Z
}.
Arguments value {V} _.
Arguments creation_time {V} _.
Arguments cache_time {V} _.

(** [CacheEntry.__init__(self, value, creation_time=None, cache_time=60)] *)
Definition init {S} `{Clock S} {V} (value : V) (creation_time : option Z)
    (cache_time : Z) : M S (t V) :=
  match creation_time with
  | None =>
      now <- time ;;
      ret {| value := value; creation_time := Some now; cache_time := cache_time |}
  | Some _ =>
      ret {| value := value; creation_time := None; cache_time := cache_time |}
  end.

(** [CacheEntry.is_valid] *)
Definition is_valid {S} `{Clock S} {V} (self : t V) : M S bool :=
  match creation_time self with
  | None => raise AttributeError
  | Some created =>
      now <- time ;;
      ret (created + cache_time self >? now)
  end.

End CacheEntry.

Module Cache.

Record t (V : Type) : Type := {
  cache_time : Z;
  cache : gmap Z (CacheEntry.t V)
}.
Arguments cache_time {V} _.
Arguments cache {V} _.

(** [Cache.__init__(self, cache_time=60)] *)
Definition init {V} (cache_time : Z) : t V :=
  {| cache_time := cache_time; cache := ∅ |}.

(** The cache object followed by the rest of the world. *)
#[global] Instance Clock_pair {V W} `{Clock W} : Clock (t V * W) :=
  fun s => clock (snd s).

Definition self {V W} : M (t V * W) (t V) := fun s => (Ok (fst s), s).

(** Code that only sees the world outside the cache. *)
Definition outside {V W A} (m : M W A) : M (t V * W) A :=
  fun s => let '(r, w) := m (snd s) in (r, (fst s, w)).

(** [Cache.hash], with the parameter [self] *)
Definition hash {Args} `{Hashing Args} (args : Args) : result Z :=
  match bind_args ["self"] args with
  | Ok _ => hash_dumps args
  | Err e => Err e
  end.

(** [Cache.get_entry], with the parameter [self] *)
Definition get_entry {V W Args} `{Clock W} `{Hashing Args} (args : Args)
  : M (t V * W) (option (CacheEntry.t V)) :=
  _ <- of_result (bind_args ["self"] args) ;;
  key <- of_result (hash args) ;;
  c <- self ;;
  match cache c !! key with
  | Some entry =>
      valid <- CacheEntry.is_valid entry ;;
      if valid then ret (Some entry) else ret None
  | None => ret None
  end.

(** [self.cache[key] = entry] *)
Definition store {V W} (key : Z) (entry : CacheEntry.t V) : M (t V * W) unit :=
  fun s =>
    (Ok tt, ({| cache_time := cache_time (fst s);
                cache := <[key := entry]> (cache (fst s)) |}, snd s)).

(** [Cache.add_entry], with the parameters [self] and [value] *)
Definition add_entry {V W Args} `{Clock W} `{Hashing Args} (value : V) (args : Args)
  : M (t V * W) unit :=
  _ <- of_result (bind_args ["self"; "value"] args) ;;
  key <- of_result (hash args) ;;
  c <- self ;;
  entry <- CacheEntry.init value None (cache_time c) ;;
  store key entry.

(** [Cache.cached(function)]: the wrapped [cached_function], which has
    no named parameter of its own. The wrapped operation acts on the
    world outside the cache. *)
Definition cached {V W Args} `{Clock W} `{Hashing Args}
    (function : Args -> M W V) (args : Args) : M (t V * W) V :=
  entry <- get_entry args ;;
  match entry with
  | Some entry => ret (CacheEntry.value entry)
  | None =>
      value <- outside (function args) ;;
      _ <- add_entry value args ;;
      ret value
  end.

(** The loop of [clean_cache] over the entries the dictionary holds when
    the loop starts. The keys are distinct and the loop only deletes the
    key it is at, so [self.cache[key]] is the entry listed with the key. *)
Fixpoint clean_items {V W} `{Clock W} (items : list (Z * CacheEntry.t V))
  : M (t V * W) unit :=
  match items with
  | [] => ret tt
  | (key, entry) :: rest =>
      valid <- CacheEntry.is_valid entry ;;
      _ <- (if valid then ret tt
            else fun s =>
                   (Ok tt, ({| cache_time := cache_time (fst s);
                               cache := delete key (cache (fst s)) |}, snd s))) ;;
      clean_items rest
  end.

(** [Cache.clean_cache] *)
Definition clean_cache {V W} `{Clock W} : M (t V * W) unit :=
  c <- self ;;
  clean_items (map_to_list (cache c)).

End Cache.

(** An entry that [is_valid] accepts at time [now]. *)
Definition valid_at {V} (now : Z) (entry : CacheEntry.t V) : bool :=
  match CacheEntry.creation_time entry with
  | Some created => created + CacheEntry.cache_time entry >? now
  | None => false
  end.

(** A cache all of whose entries have a creation time. *)
Definition well_formed {V} (c : Cache.t V) : Prop :=
  forall key entry,
    Cache.cache c !! key = Some entry -> CacheEntry.creation_time entry <> None.

(** The cache after [add_entry] has stored a value under a key at time
    [now]. *)
Definition stored {V} (c : Cache.t V) (key : Z) (v : V) (now : Z) : Cache.t V :=
  {| Cache.cache_time := Cache.cache_time c;
     Cache.cache :=
       <[key := {| CacheEntry.value := v;
                         CacheEntry.creation_time := Some now;
                         CacheEntry.cache_time := Cache.cache_time c |}]>
         (Cache.cache c) |}.

(** An operation with a call counter next to its world, to observe how
    often a wrapper invokes it. *)
Definition counted {W Args V} (function : Args -> M W V) : Args -> M (W * nat) V :=
  fun args s =>
    let '(r, w) := function args (fst s) in (r, (w, S (snd s))).

#[global] Instance Clock_counted {W} `{Clock W} : Clock (W * nat) :=
  fun s => clock (fst s).

End cache.

(** ** [backends.py] *)

Module backends.
Export Monad.
Import storage.

(** The values a keyword argument takes in the modelled calls. *)
Inductive pyval : Type :=
| PNone
| PBool (b : bool)
| PInt (n : Z)
| PStr (s : string)
| PInts (l : list Z).

(** A dictionary of keyword arguments. *)
Abbreviation kwargs := (gmap string pyval).

(** [bool(v)] *)
Definition truthy (v : pyval) : bool :=
  match v with
  | PNone => false
  | PBool b => b
  | PInt n => negb (n =? 0)
  | PStr s => negb (String.eqb s "")
  | PInts l => match l with [] => false | _ => true end
  end.

(** [v == True] and [v == False] *)
Definition eq_bool (v : pyval) (b : bool) : bool :=
  match v with
  | PBool c => Bool.eqb c b
  | PInt n => n =? (if b then 1 else 0)
  | _ => false
  end.

(** [-v] *)
Definition neg (v : pyval) : result pyval :=
  match v with
  | PBool b => Ok (PInt (if b then -1 else 0))
  | PInt n => Ok (PInt (- n))
  | _ => Err TypeError
  end.

(** [kwargs.pop(key, default)] *)
Definition pop (key : string) (dflt : pyval) (kw : kwargs) : pyval * kwargs :=
  (default dflt (kw !! key), delete key kw).

(** [list(range(a, b))] *)
Definition range (a b : Z) : list Z :=
  map (fun i => a + Z.of_nat i) (seq 0 (Z.to_nat (b - a))).

(** The two output shapes: a block of text, or an iterable of lines that
    produces its lines (and has its effects on the state [S]) when it is
    consumed. *)
Inductive output (S : Type) : Type :=
| Text (s : string)
| Iter (it : M S (list string)).
Arguments Text {S} s.
Arguments Iter {S} it.

Section OutputShapes.
Context {S : Type}.

(** [str(o)]: the complete output. *)
Definition to_text (o : output S) : M S string :=
  match o with
  | Text s => ret s
  | Iter it => lines <- it ;; ret (concat_lines lines)
  end.

Fixpoint chars (s : string) : list string :=
  match s with
  | EmptyString => []
  | String c r => String c EmptyString :: chars r
  end.

(** [for x in o]: the lines of an iterable, the characters of a text. *)
Definition iterate (o : output S) : M S (list string) :=
  match o with
  | Text s => ret (chars s)
  | Iter it => it
  end.

(** A caller that takes the whole output: the text, or all lines of the
    iterable joined. *)
Definition consume (m : M S (output S)) : M S string :=
  out <- m ;; to_text out.

(** [GridBackend._iterable_output_from_text] *)
Definition _iterable_output_from_text (text : string) (kw : kwargs)
  : result (output S) :=
  let '(it, _) := pop "_iter" (PBool false) kw in
  if eq_bool it false then Ok (Text text)
  else
    let lines := split_char newline text in
    match last_char text with
    | None => Err IndexError
    | Some c =>
        let lines := if Ascii.eqb c newline then drop_last lines else lines in
        Ok (Iter (ret (map (fun line => line +:+ String newline "") lines)))
    end.

(** [GridBackend._iterable_output_from_iterable] *)
Definition _iterable_output_from_iterable (iterable : M S (list string))
    (kw : kwargs) : M S (output S) :=
  let '(it, _) := pop "_iter" (PBool false) kw in
  if eq_bool it true then ret (Iter iterable)
  else
    lines <- iterable ;;
    ret (Text (concat_lines lines)).

(** [itertools.chain.from_iterable] over a generator of outputs: each
    output is produced when the chain reaches it, then iterated to its
    end. *)
Fixpoint chain_from_iterable (outputs : list (M S (output S)))
  : M S (list string) :=
  match outputs with
  | [] => ret []
  | o :: rest =>
      out <- o ;;
      lines <- iterate out ;;
      more <- chain_from_iterable rest ;;
      ret (lines ++ more)%list
  end.

(** A text split into its lines and joined again. *)
Definition split_then_join (text : string) : M S (output S) :=
  lines <- of_result (_iterable_output_from_text text (<["_iter" := PBool true]> ∅)) ;;
  _iterable_output_from_iterable (iterate lines) ∅.

End OutputShapes.

(** [posixpath.normpath]: one step of its loop over the components. *)
Definition normpath_step (initial_slashes : nat) (new_comps : list string)
    (comp : string) : list string :=
  if (String.eqb comp "" || String.eqb comp ".")%bool then new_comps
  else if (negb (String.eqb comp "..")
           || (Nat.eqb initial_slashes 0 && Nat.eqb (length new_comps) 0)
           || (negb (Nat.eqb (length new_comps) 0)
               && String.eqb (List.last new_comps "") ".."))%bool
       then (new_comps ++ [comp])%list
  else removelast new_comps.

Fixpoint repeat_slash (n : nat) : string :=
  match n with
  | O => ""
  | S n => "/" +:+ repeat_slash n
  end.

(** [posixpath.normpath] *)
Definition normpath (path : string) : string :=
  if String.eqb path "" then "."
  else
    let initial_slashes :=
      if startswith path "/" then
        if (startswith path "//" && negb (startswith path "///"))%bool
        then 2%nat else 1%nat
      else 0%nat in
    let comps := fold_left (normpath_step initial_slashes) (split_char slash path) [] in
    let path := repeat_slash initial_slashes +:+ String.concat "/" comps in
    if String.eqb path "" then "." else path.

(** What the code runs against. [G] is the state of the grid. [tool] is
    the external transfer toolset as the [sh] library starts it: command
    name, arguments and options give the lines of output and the exit
    status. [get_SE], [has_replica], [get_closest_SE] and [get_replica] are
    the functions of [storage.py] that [replicate] calls and this version
    of [storage.py] does not define; [re_compile] and [re_search] are
    [re.compile] and [regex.search]. *)
Class Env : Type := {
  G : Type;
  tool : string -> list string -> kwargs -> G -> (list string * Z) * G;
  get_SE : string -> M G (option StorageElement);
  has_replica : StorageElement -> string -> M G bool;
  get_closest_SE : StorageElement -> string -> bool -> M G (option StorageElement);
  get_replica : StorageElement -> string -> M G string;
  regex : Type;
  re_compile : string -> result regex;
  re_search : regex -> string -> bool
}.

(** The primitives a concrete backend supplies. They act on the grid. *)
Class Backend {E : Env} : Type := {
  basedir : string;
  _ls : string -> kwargs -> M G (output G);
  _replicate : string -> string -> kwargs -> M G (output G)
}.

(** The state [replicate] runs in: the grid, and a record of the calls of
    the primitive [_replicate] made so far (source, destination and
    options of each call), kept to count them. *)
Record World {E : Env} : Type := {
  grid : G;
  replicate_calls : list (string * string * kwargs)
}.

Section GridBackend.
Context {E : Env} {B : Backend}.

(** [GridBackend.full_path] *)
Definition full_path (relpath : string) : string :=
  normpath (basedir +:+ relpath).

(** [GridBackend.ls] *)
Definition ls (remotepath : string) (kw : kwargs) : M G (output G) :=
  let _path := full_path remotepath in
  _ls _path kw.

(** [GridBackend._is_dir] *)
Definition _is_dir (remotepath : string) : M G bool :=
  listing <- _ls remotepath (<["long" := PBool true]> (<["directory" := PBool true]> ∅)) ;;
  text <- to_text listing ;;
  match strip text with
  | EmptyString => raise IndexError
  | String c _ => ret (Ascii.eqb c "d")
  end.

(** Code that acts on the grid alone. *)
Definition on_grid {A} (m : M G A) : M World A :=
  fun w =>
    let '(r, g) := m (grid w) in
    (r, {| grid := g; replicate_calls := replicate_calls w |}).

Definition lift_output (o : output G) : output World :=
  match o with
  | Text s => Text s
  | Iter it => Iter (on_grid it)
  end.

(** The call [self._replicate(...)], entered in the record of calls. *)
Definition record_replicate (source destination : string) (kw : kwargs)
  : M World unit :=
  fun w =>
    (Ok tt, {| grid := grid w;
               replicate_calls :=
                 (replicate_calls w ++ [(source, destination, kw)])%list |}).

Definition call_replicate (source destination : string) (kw : kwargs)
  : M World (output World) :=
  _ <- record_replicate source destination kw ;;
  out <- on_grid (_replicate source destination kw) ;;
  ret (lift_output out).

(** The [recursive] argument of [replicate]: a truth value or a pattern. *)
Inductive recursive_arg : Type :=
| RecBool (b : bool)
| RecPattern (pattern : string).

(** The first lines of [replicate]: a pattern is compiled and implies
    recursion. *)
Definition recursion_mode (recursive : recursive_arg) : result (option regex * bool) :=
  match recursive with
  | RecPattern p =>
      match re_compile p with
      | Ok r => Ok (Some r, true)
      | Err e => Err e
      end
  | RecBool b => Ok (None, b)
  end.

(** The test [recursive and self._is_dir(_path)]. *)
Definition descends (recursive : bool) (_path : string) : M G bool :=
  if recursive then _is_dir _path else ret false.

(** The paths of the children that [replicate] descends into. *)
Definition newpaths_of (remotepath : string) (rx : option regex)
    (elements : list string) : list string :=
  flat_map (fun element =>
    let element := strip element in
    if match rx with None => true | Some r => re_search r element end
    then [posixpath.join remotepath element] else []) elements.

(** The text [replicate] returns when the replica is at the destination. *)
Definition already_present (remotepath : string) (dst : StorageElement) : string :=
  remotepath
  +:+ String newline "Replica already present at destination storage element "
  +:+ name dst +:+ "." +:+ String newline "".

(** The block [# Get source SE] of [replicate]: the closest element with
    a replica, or the named source if it holds one. *)
Definition resolve_source (dst : StorageElement) (remotepath : string)
    (source : option string) (tape : bool) : M G StorageElement :=
  match source with
  | None =>
      src <- get_closest_SE dst remotepath tape ;;
      match src with
      | None =>
          raise (ErrorReturnCode 1
                   ("Could not find valid storage element with replica of "
                    +:+ remotepath +:+ "." +:+ String newline ""))
      | Some src => ret src
      end
  | Some source =>
      src <- get_SE source ;;
      match src with
      | None =>
          raise (ErrorReturnCode 1
                   ("Could not find storage element "
                    +:+ source +:+ "." +:+ String newline ""))
      | Some src =>
          held <- has_replica src remotepath ;;
          if held then ret src
          else
            raise (ErrorReturnCode 1
                     (remotepath
                      +:+ String newline "No replica present at source storage element "
                      +:+ name src +:+ String newline ""))
      end
  end.

(** The options of the call of [replicate] on a child:
    [_iter=True, _ok_code=list(range(-255,256)), **kwargs]. *)
Definition child_kwargs (kw : kwargs) : kwargs :=
  <["_iter" := PBool true]> (<["_ok_code" := PInts (range (-255) 256)]> kw).

(** [GridBackend.replicate]. The function calls itself on the children of
    a directory; [fuel] bounds the depth of these calls. *)
Fixpoint replicate (fuel : nat) (remotepath destination : string)
    (source : option string) (tape : bool) (recursive : recursive_arg)
    (kw : kwargs) {struct fuel} : M World (output World) :=
  match fuel with
  | O => raise OutOfFuel
  | S fuel =>
      mode <- of_result (recursion_mode recursive) ;;
      let rx := fst mode in
      let recursive := snd mode in
      let _path := full_path remotepath in
      descend <- on_grid (descends recursive _path) ;;
      if descend then
        let '(it, kw) := pop "_iter" (PBool false) kw in
        elements <- on_grid (listing <- ls remotepath (<["_iter" := PBool true]> ∅) ;;
                             iterate listing) ;;
        let newpaths := newpaths_of remotepath rx elements in
        let outputs :=
          map (fun path =>
                 match kw !! "_ok_code" with
                 | Some _ => raise TypeError
                 | None =>
                     replicate fuel path destination source tape (RecBool recursive)
                       (child_kwargs kw)
                 end) newpaths in
        let iterable := chain_from_iterable outputs in
        _iterable_output_from_iterable iterable (<["_iter" := it]> ∅)
      else
        dst <- on_grid (get_SE destination) ;;
        match dst with
        | None => raise AttributeError
        | Some dst =>
            present <- on_grid (has_replica dst remotepath) ;;
            if present then
              of_result (_iterable_output_from_text (already_present remotepath dst) kw)
            else
              src <- on_grid (resolve_source dst remotepath source tape) ;;
              source_path <- on_grid (get_replica src remotepath) ;;
              let destination_path := get_storage_path dst remotepath in
              call_replicate source_path destination_path kw
        end
  end.

(** A directory with a fixed listing, in every state of the grid. *)
Definition directory_of (remotepath : string) (elements : list string) : Prop :=
  forall g,
    _is_dir (full_path remotepath) g = (Ok true, g)
    /\ (listing <- ls remotepath (<["_iter" := PBool true]> ∅) ;; iterate listing) g
       = (Ok elements, g).

End GridBackend.

(** The base class: its primitives are not implemented. *)
Definition GridBackend {E : Env} (basedir : string) : Backend :=
  {| basedir := basedir;
     _ls := fun _ _ => raise NotImplementedError;
     _replicate := fun _ _ _ => raise NotImplementedError |}.

Section LCGBackend.
Context {E : Env}.

(** The exit statuses [sh] accepts: the [_ok_code] option, 0 without it. *)
Definition ok_codes (kw : kwargs) : list Z :=
  match kw !! "_ok_code" with
  | None => [0]
  | Some (PInts l) => l
  | Some (PInt n) => [n]
  | Some (PBool b) => [if b then 1 else 0]
  | Some _ => []
  end.

(** A run of an external command to its end: its lines of output, or
    [ErrorReturnCode] when the exit status is not an accepted one. *)
Definition run_command (cmd : string) (args : list string) (kw : kwargs)
  : M G (list string) :=
  fun g =>
    let '(lines, code, g') := tool cmd args kw g in
    if existsb (Z.eqb code) (ok_codes kw) then (Ok lines, g')
    else (Err (ErrorReturnCode code ""), g').

(** A call of an [sh.Command] object: with [_iter] the lines come as an
    iterable, without it the call returns after the command has ended. *)
Definition sh_command (cmd : string) (args : list string) (kw : kwargs)
  : M G (output G) :=
  if truthy (default PNone (kw !! "_iter")) then ret (Iter (run_command cmd args kw))
  else
    lines <- run_command cmd args kw ;;
    ret (Text (concat_lines lines)).

(** [LCGBackend._ls] *)
Definition LCG_ls (remotepath : string) (kw : kwargs) : M G (output G) :=
  let '(l, kw) := pop "long" (PBool false) kw in
  let '(d, kw) := pop "directory" (PBool false) kw in
  let args := [] in
  let args := if truthy l then (args ++ ["-l"])%list else args in
  minus_d <- of_result (neg d) ;;
  let args := if truthy minus_d then (args ++ ["-d"])%list else args in
  let args := (args ++ [remotepath])%list in
  sh_command "lfc-ls" args kw.

(** [LCGBackend._ignore_identical_lines] *)
Fixpoint _ignore_identical_lines_from (last_line : option string)
    (iterable : list string) : list string :=
  match iterable with
  | [] => []
  | line :: rest =>
      if match last_line with
         | Some l => String.eqb line l
         | None => false
         end
      then _ignore_identical_lines_from last_line rest
      else line :: _ignore_identical_lines_from (Some line) rest
  end.

Definition _ignore_identical_lines (iterable : list string) : list string :=
  _ignore_identical_lines_from None iterable.


(** [LCGBackend._replicate] *)
Definition LCG_replicate (source_storagepath destination_storagepath : string)
    (kw : kwargs) : M G (output G) :=
  let kw := <["_err_to_out" := PBool true]> kw in
  let kw := delete "_err" kw in
  let '(it, kw) := pop "_iter" (PBool false) kw in
  let kw := <["_iter" := PBool true]> kw in
  iterable <- sh_command "lcg-rep"
                ["-v"; "--checksum"; "-d"; destination_storagepath; source_storagepath]
                kw ;;
  let iterable := (lines <- iterate iterable ;; ret (_ignore_identical_lines lines)) in
  _iterable_output_from_iterable iterable (<["_iter" := it]> ∅).

(** [LCGBackend]: the base directory lies under [/grid]. *)
Definition LCGBackend (basedir : string) : Backend :=
  {| basedir := "/grid" +:+ basedir;
     _ls := LCG_ls;
     _replicate := LCG_replicate |}.

End LCGBackend.

Section FileTransfers.
Context {E : Env} {B : Backend}.


End FileTransfers.

(** Lines none of which equals the line before it. *)
Fixpoint no_repeats (lines : list string) : Prop :=
  match lines with
  | a :: rest =>
      match rest with
      | b :: _ => a <> b /\ no_repeats rest
      | [] => True
      end
  | [] => True
  end.

(** A name between separators: not empty, not [.] or [..], without a
    separator in it. *)
Definition plain_name (s : string) : Prop :=
  s <> "" /\ s <> "." /\ s <> ".." /\ count_char slash s = 0%nat.

(** [s.split()] without a separator: the maximal runs of characters that
    are not white space. [split_ws_from s] is the run that starts [s]
    (empty when [s] is empty or starts with white space) and the runs
    after it. *)
Fixpoint split_ws_from (s : string) : string * list string :=
  match s with
  | EmptyString => (EmptyString, [])
  | String c r =>
      let '(word, words) := split_ws_from r in
      if is_space c then
        (EmptyString, match word with EmptyString => words | _ => word :: words end)
      else (String c word, words)
  end.

Definition split_ws (s : string) : list string :=
  let '(word, words) := split_ws_from s in
  match word with EmptyString => words | _ => word :: words end.

(** [try: m except sh.ErrorReturnCode: fallback] *)
Definition except_ErrorReturnCode {S A} (m : M S A) (fallback : A) : M S A :=
  fun s =>
    match m s with
    | (Err (ErrorReturnCode _ _), s') => (Ok fallback, s')
    | other => other
    end.

Fixpoint spaces (n : nat) : string :=
  match n with
  | O => EmptyString
  | S n => String " " (spaces n)
  end.

(** The conversion [%-ns]: padded with blanks on the right to [n]
    characters. *)
Definition ljust (n : nat) (s : string) : string :=
  s +:+ spaces (n - String.length s).

(** The conversion [%n.ns]: cut to [n] characters, then padded with
    blanks on the left. *)
Definition rjust_cut (n : nat) (s : string) : string :=
  let s := String.substring 0 n s in
  spaces (n - String.length s) +:+ s.

(** The format ["%-32s %-4s %-7s %8.8s %s"] of [_add_replica_info]. *)
Definition replica_info_line (name type state checksum rep : string) : string :=
  ljust 32 name +:+ " " +:+ ljust 4 type +:+ " " +:+ ljust 7 state +:+ " "
  +:+ rjust_cut 8 checksum +:+ " " +:+ rep.

(** The text of [SE.type]. *)
Definition type_name (t : se_type) : string :=
  match t with
  | tape => "tape"
  | disk => "disk"
  end.

(** The primitives on single replicas that a concrete backend supplies. *)
Class ReplicaBackend {E : Env} : Type := {
  _replica_state : string -> kwargs -> M G string;
  _replica_checksum : string -> kwargs -> M G string
}.

Section ReplicaInfo.
Context {E : Env} {R : ReplicaBackend}.

(** [GridBackend._add_replica_info]: the arguments of the format are
    evaluated from left to right, the state before the checksum. *)
Definition _add_replica_info (rep : string) : M G string :=
  let SE := get_SE_by_path rep in
  match SE with
  | Some SE =>
      state <- _replica_state rep ∅ ;;
      checksum <- _replica_checksum rep ∅ ;;
      ret (replica_info_line (name SE) (type_name (type SE)) state checksum rep)
  | None =>
      state <- _replica_state rep ∅ ;;
      checksum <- _replica_checksum rep ∅ ;;
      ret (replica_info_line "UNKNOWN" "?" state checksum rep)
  end.

End ReplicaInfo.

(** The base class: these primitives are not implemented either. *)
Definition GridReplicaBackend {E : Env} : ReplicaBackend :=
  {| _replica_state := fun _ _ => raise NotImplementedError;
     _replica_checksum := fun _ _ => raise NotImplementedError |}.

Section LCGReplicaInfo.
Context {E : Env}.

(** [LCGBackend._replica_state] *)
Definition LCG_replica_state (storagepath : string) (kw : kwargs) : M G string :=
  let _path := strip storagepath in
  let '(_, kw) := pop "_iter" PNone kw in
  listing <- except_ErrorReturnCode (sh_command "lcg-ls" ["-l"; _path] kw)
               (Text "- - - - - ?") ;;
  text <- to_text listing ;;
  match nth_error (split_ws text) 5 with
  | Some state => ret state
  | None => raise IndexError
  end.

(** [LCGBackend._replica_checksum] *)
Definition LCG_replica_checksum (storagepath : string) (kw : kwargs) : M G string :=
  let _path := strip storagepath in
  let '(_, kw) := pop "_iter" PNone kw in
  listing <- except_ErrorReturnCode (sh_command "lcg-get-checksum" [_path] kw)
               (Text "? -") ;;
  text <- to_text listing ;;
  let checksum :=
    match split_ws text with
    | word :: _ => word
    | [] => "?"
    end in
  ret checksum.

Definition LCGReplicaBackend : ReplicaBackend :=
  {| _replica_state := LCG_replica_state;
     _replica_checksum := LCG_replica_checksum |}.

End LCGReplicaInfo.

End backends.

(** ** Concrete scenarios *)

Module Examples.
Import storage backends.

(** One of the storage elements that [storage.py] lists as still to be
    added, at a location of its own in the same country as RAL. *)
Definition UKI_SOUTHGRID_OX_HEP_disk : StorageElement :=
  {| name := "UKI-SOUTHGRID-OX-HEP-disk";
     host := "t2se01.physics.ox.ac.uk";
     type := disk;
     location := "/europe/uk/ox";
     basepath := "srm://" |}.

(** A world that is nothing but its clock, and an operation on integers
    that takes one tick and doubles its argument, failing on negative
    ones. *)
#[global] Instance Clock_Z : cache.Clock Z := fun now => now.
#[global] Instance Hashing_Z : cache.Hashing Z :=
  {| cache.keywords := fun _ => []; cache.hash_dumps := fun args => Py.Ok args |}.

(** A hash with collisions: the last decimal digit. *)
Definition Hashing_last_digit : cache.Hashing Z :=
  {| cache.keywords := fun _ => [];
     cache.hash_dumps := fun args => Py.Ok (args mod 10) |}.

Definition double : Z -> Monad.M Z Z :=
  fun args now =>
    if args <? 0 then (Py.Err (Py.ErrorReturnCode 1 "negative"), now + 1)
    else (Py.Ok (2 * args), now + 1).

(** Argument lists of one positional integer and named integers;
    [picklable] tells whether [dumps] accepts them. The operation
    [double_call] doubles the positional argument. *)
Record call : Type := {
  positional : Z;
  named : list (string * Z);
  picklable : bool
}.

#[global] Instance Hashing_call : cache.Hashing call :=
  {| cache.keywords := fun args => map fst (named args);
     cache.hash_dumps := fun args =>
       if picklable args
       then Py.Ok (fold_left (fun h kv => 31 * h + snd kv) (named args) (positional args))
       else Py.Err Py.PicklingError |}.

Definition double_call : call -> Monad.M Z Z :=
  fun args => double (positional args).

(** A small grid: the directory [/data] holds [a.txt] and [b.txt], both
    with a replica at RAL-LCG22-tape and nowhere else. The catalogue does
    not change. The transfer of [a.txt] ends with the exit status
    [a_status], every other transfer with 0. *)
Definition demo_tool (a_status : Z) (cmd : string) (args : list string)
    (kw : kwargs) (g : unit) : (list string * Z) * unit :=
  if String.eqb cmd "lfc-ls" then
    match args with
    | [_; _; path] =>
        if String.eqb path "/grid/t2k.org/data"
        then (["drwxrwxr-x 2 t2k t2k 0 Jan 01 12:00 /grid/t2k.org/data" +:+ String Py.newline ""], 0, g)
        else (["-rw-rw-r-- 1 t2k t2k 9 Jan 01 12:00 " +:+ path +:+ String Py.newline ""], 0, g)
    | [path] =>
        if String.eqb path "/grid/t2k.org/data"
        then (["a.txt" +:+ String Py.newline ""; "b.txt" +:+ String Py.newline ""], 0, g)
        else ([path +:+ String Py.newline ""], 0, g)
    | _ => ([], 1, g)
    end
  else if String.eqb cmd "lcg-rep" then
    match args with
    | [_; _; _; _; src] =>
        if Py.contains src "a.txt"
        then (["Copying " +:+ src +:+ String Py.newline "";
               "Transfer failed" +:+ String Py.newline ""], a_status, g)
        else (["Copying " +:+ src +:+ String Py.newline ""], 0, g)
    | _ => ([], 1, g)
    end
  else ([], 127, g).

Definition demo_get_SE (name : string) : option StorageElement :=
  List.find (fun SE => String.eqb (storage.name SE) name) SEs.

Definition demo_has_replica (SE : StorageElement) (remotepath : string) : bool :=
  String.eqb (storage.name SE) "RAL-LCG22-tape".

Definition demo_env (a_status : Z) : Env :=
  {| G := unit;
     tool := demo_tool a_status;
     get_SE := fun name g => (Py.Ok (demo_get_SE name), g);
     has_replica := fun SE remotepath g => (Py.Ok (demo_has_replica SE remotepath), g);
     get_closest_SE := fun dst remotepath tape g => (Py.Ok (Some RAL_LCG22_tape), g);
     get_replica := fun SE remotepath g => (Py.Ok (basepath SE +:+ remotepath), g);
     regex := string;
     re_compile := fun p => Py.Ok p;
     re_search := fun p s => Py.contains s p |}.









Definition demo_world (a_status : Z) : World (E := demo_env a_status) :=
  {| grid := tt : G (Env := demo_env a_status); replicate_calls := [] |}.

(** A recursive replication of [/data] to JP-KEK-CRC-02-disk on the small
    grid, run to the end of its output. *)
Definition demo_replicate (a_status : Z) (fuel : nat) (source : option string)
    (tape : bool) (recursive : recursive_arg) (kw : kwargs)
  : Py.result string * World (E := demo_env a_status) :=
  consume
    (replicate (E := demo_env a_status) (B := LCGBackend "/t2k.org")
       fuel "/data" "JP-KEK-CRC-02-disk" source tape recursive kw)
    (demo_world a_status).

(** The tools that describe single replicas: [lcg-ls -l] prints a line
    whose sixth word is the state, and fails for a replica that was lost;
    [lcg-get-checksum] prints the checksum and the path. *)
Definition replica_tool (cmd : string) (args : list string) (kw : kwargs)
    (g : unit) : (list string * Z) * unit :=
  if String.eqb cmd "lcg-ls" then
    match args with
    | [_; path] =>
        if Py.contains path "lost" then ([], 1, g)
        else (["-rw-r--r--   1     2     2 9              ONLINE " +:+ path
               +:+ String Py.newline ""], 0, g)
    | _ => ([], 1, g)
    end
  else if String.eqb cmd "lcg-get-checksum" then
    match args with
    | [path] => (["529506c1" +:+ String "009" path +:+ String Py.newline ""], 0, g)
    | _ => ([], 1, g)
    end
  else ([], 127, g).

Definition replica_env : Env :=
  {| G := unit;
     tool := replica_tool;
     get_SE := fun name g => (Py.Ok (demo_get_SE name), g);
     has_replica := fun SE remotepath g => (Py.Ok (demo_has_replica SE remotepath), g);
     get_closest_SE := fun dst remotepath tape g => (Py.Ok (Some RAL_LCG22_tape), g);
     get_replica := fun SE remotepath g => (Py.Ok (basepath SE +:+ remotepath), g);
     regex := string;
     re_compile := fun p => Py.Ok p;
     re_search := fun p s => Py.contains s p |}.

(** A line of the listing of replicas, as [lcg-lr] prints it. *)
Definition replica_line : string :=
  "srm://srm-t2k.gridpp.rl.ac.uk/castor/ads.rl.ac.uk/prod/t2k.org/data/a.txt"
  +:+ String Py.newline "".

End Examples.

(** * Properties *)

#[local] Arguments String.append !_ _ / : simpl nomatch.

(** ** Strings *)

Section StringFacts.
Import Py.

Lemma append_nil_r (s : string) : s +:+ "" = s.
Proof. induction s as [|c s IH]; simpl; [reflexivity | now rewrite IH]. Qed.

Lemma append_assoc (s t u : string) : (s +:+ t) +:+ u = s +:+ (t +:+ u).
Proof. induction s as [|c s IH]; simpl; [reflexivity | now rewrite IH]. Qed.

Lemma length_append (s t : string) :
  String.length (s +:+ t) = (String.length s + String.length t)%nat.
Proof. induction s as [|c s IH]; simpl; [reflexivity | now rewrite IH]. Qed.

Lemma prefix_spec (p s : string) :
  String.prefix p s = true <-> exists t, s = p +:+ t.
Proof.
  revert s. induction p as [|c p IH]; intros s; simpl.
  - destruct s; split; eauto.
  - destruct s as [|d s]; simpl.
    + split; [discriminate | intros [t Ht]; discriminate].
    + destruct (ascii_dec c d) as [->|Hne].
      * rewrite IH. split; intros [t Ht]; exists t; simpl in *; congruence.
      * split; [discriminate | intros [t Ht]; simpl in Ht; congruence].
Qed.

Lemma contains_spec (hay needle : string) :
  contains hay needle = true <-> exists pre post, hay = pre +:+ needle +:+ post.
Proof.
  induction hay as [|c hay IH].
  - cbn [contains]. rewrite orb_false_r, prefix_spec. split.
    + intros [t Ht]. exists "", t. exact Ht.
    + intros [pre [post Hp]]. destruct pre; simpl in Hp.
      * eauto.
      * discriminate.
  - cbn [contains]. rewrite orb_true_iff, IH, prefix_spec. split.
    + intros [[t Ht] | [pre [post Hp]]].
      * exists "", t. exact Ht.
      * exists (String c pre), post. simpl. now rewrite Hp.
    + intros [pre [post Hp]]. destruct pre as [|d pre]; simpl in Hp.
      * left. eauto.
      * right. exists pre, post. congruence.
Qed.

Lemma count_char_append (c : ascii) (s t : string) :
  count_char c (s +:+ t) = (count_char c s + count_char c t)%nat.
Proof. induction s as [|d s IH]; simpl; [reflexivity | rewrite IH; lia]. Qed.

Lemma split_char_not_nil (c : ascii) (s : string) : split_char c s <> [].
Proof.
  destruct s as [|d s]; simpl; [discriminate |].
  destruct (Ascii.eqb d c); [discriminate |].
  destruct (split_char c s); discriminate.
Qed.

(** Splitting a text that ends with the separator leaves an empty last
    piece, and nothing else changes. *)
Lemma split_char_terminated (c : ascii) (s : string) :
  split_char c (s +:+ String c "") = (split_char c s ++ [""])%list.
Proof.
  induction s as [|d s IH]; simpl.
  - now rewrite Ascii.eqb_refl.
  - destruct (Ascii.eqb d c); [now rewrite IH |].
    rewrite IH. destruct (split_char c s) eqn:E; [|reflexivity].
    now apply split_char_not_nil in E.
Qed.

(** Every piece followed by the separator, joined: the text and one more
    separator. *)
Lemma concat_split_char (c : ascii) (s : string) :
  concat_lines (map (fun line => line +:+ String c "") (split_char c s))
  = s +:+ String c "".
Proof.
  induction s as [|d s IH]; simpl; [reflexivity |].
  destruct (Ascii.eqb d c) eqn:E.
  - apply Ascii.eqb_eq in E. subst d. simpl. now rewrite IH.
  - destruct (split_char c s) as [|h t] eqn:Es; simpl in *.
    + now apply split_char_not_nil in Es.
    + now rewrite IH.
Qed.

Lemma last_char_append (s : string) (c : ascii) :
  last_char (s +:+ String c "") = Some c.
Proof.
  induction s as [|d s IH]; simpl; [reflexivity |].
  destruct (s +:+ String c "") eqn:E; [|exact IH].
  destruct s; discriminate.
Qed.

Lemma last_char_inv (s : string) (c : ascii) :
  last_char s = Some c -> exists r, s = r +:+ String c "".
Proof.
  induction s as [|d s IH]; simpl; [discriminate |].
  destruct s as [|e s].
  - intros [= ->]. now exists "".
  - intros Hl. destruct (IH Hl) as [r Hr]. exists (String d r).
    simpl. now rewrite Hr.
Qed.

Lemma removelast_snoc {A} (l : list A) (x : A) : removelast (l ++ [x])%list = l.
Proof. apply removelast_last. Qed.

End StringFacts.

(** ** [posixpath.commonprefix] *)

Section CommonPrefix.
Import Py posixpath.

Lemma commonprefix_comm (a b : string) : commonprefix a b = commonprefix b a.
Proof.
  revert b. induction a as [|c a IH]; intros [|d b]; simpl; try reflexivity.
  rewrite (Ascii.eqb_sym d c). destruct (Ascii.eqb c d) eqn:E; [|reflexivity].
  apply Ascii.eqb_eq in E. subst d. now rewrite IH.
Qed.

Lemma commonprefix_diag (a : string) : commonprefix a a = a.
Proof.
  induction a as [|c a IH]; simpl; [reflexivity |].
  now rewrite Ascii.eqb_refl, IH.
Qed.

Lemma commonprefix_is_prefix_r (a b : string) :
  exists t, b = commonprefix a b +:+ t.
Proof.
  revert b. induction a as [|c a IH]; intros [|d b]; simpl; eauto.
  destruct (Ascii.eqb c d) eqn:E; [|eauto].
  apply Ascii.eqb_eq in E. subst d.
  destruct (IH b) as [t Ht]. exists t. simpl. now rewrite <- Ht.
Qed.

(** Of two prefixes of one string the shorter is a prefix of the longer. *)
Lemma prefixes_nested (p q t u : string) :
  p +:+ t = q +:+ u -> (String.length p <= String.length q)%nat ->
  exists v, q = p +:+ v.
Proof.
  revert q. induction p as [|c p IH]; intros q Heq Hlen; simpl in *.
  - eauto.
  - destruct q as [|d q]; simpl in *; [lia |].
    injection Heq as -> Heq.
    destruct (IH q Heq ltac:(lia)) as [v Hv]. exists v. now rewrite Hv.
Qed.

(** The loop of the library never reads past the end of the larger
    string: on the smaller and the larger of two strings it returns their
    longest common prefix. *)
Lemma commonprefix_loop_le (s1 s2 : string) :
  String.ltb s2 s1 = false ->
  commonprefix_loop s1 s2 = Some (commonprefix s1 s2).
Proof.
  unfold String.ltb. revert s2.
  induction s1 as [|c s1 IH]; intros [|d s2]; simpl; try reflexivity;
    try discriminate.
  unfold Ascii.compare.
  destruct (Ascii.eqb c d) eqn:E.
  - apply Ascii.eqb_eq in E. subst d. rewrite N.compare_refl.
    intros Hlt. now rewrite (IH s2 Hlt).
  - reflexivity.
Qed.

End CommonPrefix.

(** ** Storage elements *)

Section Storage.
Import Py posixpath storage.

(** The library's [commonprefix] of two strings is their longest common
    prefix, and its loop never fails. *)
Lemma commonprefix_impl_correct (a b : string) :
  commonprefix_impl a b = Some (commonprefix a b).
Proof.
  unfold commonprefix_impl, min2, max2.
  destruct (String.ltb b a) eqn:Hba.
  - assert (String.ltb a b = false) as Hab.
    { unfold String.ltb in *. rewrite String.compare_antisym.
      destruct (String.compare b a); simpl; congruence. }
    rewrite Hab, commonprefix_loop_le by exact Hab.
    now rewrite commonprefix_comm.
  - destruct (String.ltb a b) eqn:Hab.
    + now apply commonprefix_loop_le.
    + assert (a = b) as ->.
      { unfold String.ltb in *. apply String.compare_eq_iff.
        rewrite String.compare_antisym in Hba.
        destruct (String.compare a b); simpl in *; congruence. }
      apply commonprefix_loop_le. exact Hab.
Qed.

Lemma count_char_prefix_le (c : ascii) (p q t u : string) :
  p +:+ t = q +:+ u -> (String.length p <= String.length q)%nat ->
  (count_char c p <= count_char c q)%nat.
Proof.
  intros Heq Hlen. destruct (prefixes_nested _ _ _ _ Heq Hlen) as [v ->].
  rewrite count_char_append. lia.
Qed.

(** The loop of [get_SE_by_path] returns the first element of the registry
    whose host occurs in the path. *)
Lemma get_SE_by_path_in_spec (registry : list StorageElement) (path : string) :
  match get_SE_by_path_in registry path with
  | Some SE =>
      exists i : nat,
        registry !! i = Some SE
        /\ (exists pre post, path = pre +:+ host SE +:+ post)
        /\ forall (j : nat) SE', (j < i)%nat -> registry !! j = Some SE' ->
             ~ exists pre post, path = pre +:+ host SE' +:+ post
  | None =>
      forall SE, In SE registry ->
        ~ exists pre post, path = pre +:+ host SE +:+ post
  end.
Proof.
  induction registry as [|SE rest IH]; simpl.
  - intros SE [].
  - destruct (contains path (host SE)) eqn:Hc.
    + exists 0%nat. split; [reflexivity |]. split.
      * now apply contains_spec.
      * intros j SE' Hj. lia.
    + assert (~ exists pre post, path = pre +:+ host SE +:+ post) as Hno.
      { intros Hex. apply contains_spec in Hex. congruence. }
      destruct (get_SE_by_path_in rest path) as [SE0|].
      * destruct IH as [i [Hi [Hin Hfirst]]].
        exists (S i). split; [exact Hi |]. split; [exact Hin |].
        intros [|j] SE' Hj Hl; simpl in Hl.
        -- injection Hl as <-. exact Hno.
        -- apply (Hfirst j SE'); [lia | exact Hl].
      * intros SE' [<- | Hin]; [exact Hno | now apply IH].
Qed.

(** C2. On an absolute logical path [get_storage_path] returns the logical
    path alone: the base path of the storage element is dropped, so the
    result is not the concatenation of base path and logical path. For
    RAL-LCG22-tape and [/nd280/test] the result is [/nd280/test]. *)
Theorem get_storage_path_drops_basepath :
  (forall SE p, get_storage_path SE (String "/" p) = String "/" p)
  /\ get_storage_path RAL_LCG22_tape "/nd280/test" = "/nd280/test"
  /\ get_storage_path RAL_LCG22_tape "/nd280/test"
     <> basepath RAL_LCG22_tape +:+ "/nd280/test".
Proof.
  split; [|split].
  - intros SE p. unfold get_storage_path, join, startswith.
    destruct p; reflexivity.
  - reflexivity.
  - discriminate.
Qed.

(** The number of ['/'] in the common prefix of two locations is the
    number of components they share, or one less. *)
Lemma count_slash_shared_components (a b : string) :
  (count_char slash (commonprefix a b) <= shared_components a b
   <= count_char slash (commonprefix a b) + 1)%nat.
Proof.
  unfold shared_components, components. revert b.
  induction a as [|c a IH]; intros [|d b]; cbn [commonprefix count_char split_char].
  - cbn. lia.
  - destruct (Ascii.eqb d slash); [cbn; lia |].
    destruct (split_char slash b); cbn; lia.
  - destruct (Ascii.eqb c slash);
      [cbn [shared_leading String.eqb]; destruct (split_char slash a);
       cbn [shared_leading]; lia |].
    destruct (split_char slash a); cbn; lia.
  - specialize (IH b).
    destruct (Ascii.eqb c d) eqn:Ecd.
    + apply Ascii.eqb_eq in Ecd. subst d. cbn [count_char].
      destruct (Ascii.eqb c slash) eqn:Ec.
      * cbn [shared_leading String.eqb]. lia.
      * destruct (split_char slash a) as [|h t] eqn:Ea;
          [now apply split_char_not_nil in Ea |].
        destruct (split_char slash b) as [|h' t'] eqn:Eb;
          [now apply split_char_not_nil in Eb |].
        cbn [shared_leading String.eqb] in *. rewrite Ascii.eqb_refl. lia.
    + cbn [count_char].
      destruct (Ascii.eqb c slash) eqn:Ec, (Ascii.eqb d slash) eqn:Ed.
      * apply Ascii.eqb_eq in Ec, Ed. subst. now rewrite Ascii.eqb_refl in Ecd.
      * destruct (split_char slash b); cbn [shared_leading String.eqb]; lia.
      * destruct (split_char slash a); cbn [shared_leading String.eqb]; lia.
      * destruct (split_char slash a), (split_char slash b);
          cbn [shared_leading String.eqb]; rewrite Ecd; lia.
Qed.

(** C5, as stated, fails: a storage element at the location of the
    reference shares a longer prefix with it (14 characters, or all 4
    components) than an element at [/europe/uk/ox] (11 characters, or 3
    components), and both are at distance -3. *)
Lemma get_distance_not_strictly_monotone :
  (String.length (commonprefix (location Examples.UKI_SOUTHGRID_OX_HEP_disk)
                    (location UKI_SOUTHGRID_RALPP_disk))
   < String.length (commonprefix (location RAL_LCG22_tape)
                      (location UKI_SOUTHGRID_RALPP_disk)))%nat
  /\ (shared_components (location Examples.UKI_SOUTHGRID_OX_HEP_disk)
        (location UKI_SOUTHGRID_RALPP_disk)
      < shared_components (location RAL_LCG22_tape)
          (location UKI_SOUTHGRID_RALPP_disk))%nat
  /\ get_distance RAL_LCG22_tape UKI_SOUTHGRID_RALPP_disk = -3
  /\ get_distance Examples.UKI_SOUTHGRID_OX_HEP_disk UKI_SOUTHGRID_RALPP_disk = -3
  /\ ~ (get_distance RAL_LCG22_tape UKI_SOUTHGRID_RALPP_disk
        < get_distance Examples.UKI_SOUTHGRID_OX_HEP_disk UKI_SOUTHGRID_RALPP_disk).
Proof.
  vm_compute. repeat split; try lia; try reflexivity.
  - intros H; discriminate H.
Qed.

(** C5, amended. If the location of [x] shares a strictly longer prefix
    with the location of [ref] than the location of [y] does, counted in
    characters of the common string prefix or in common leading
    components, then [x] is at most as far from [ref] as [y]. *)
Theorem get_distance_monotone (x y ref : StorageElement) :
  ((String.length (commonprefix (location y) (location ref))
    < String.length (commonprefix (location x) (location ref)))%nat ->
   get_distance x ref <= get_distance y ref)
  /\ ((shared_components (location y) (location ref)
       < shared_components (location x) (location ref))%nat ->
      get_distance x ref <= get_distance y ref).
Proof.
  unfold get_distance. split.
  - intros Hlen.
    destruct (commonprefix_is_prefix_r (location x) (location ref)) as [tx Hx].
    destruct (commonprefix_is_prefix_r (location y) (location ref)) as [ty Hy].
    assert (count_char slash (commonprefix (location y) (location ref))
            <= count_char slash (commonprefix (location x) (location ref)))%nat.
    { eapply count_char_prefix_le; [|lia]. rewrite <- Hy. exact Hx. }
    lia.
  - intros Hshared.
    pose proof (count_slash_shared_components (location x) (location ref)).
    pose proof (count_slash_shared_components (location y) (location ref)).
    lia.
Qed.

(** RAL is at least as close to RAL as KEK and as Oxford are. *)
Lemma get_distance_monotone_witness :
  get_distance RAL_LCG22_tape UKI_SOUTHGRID_RALPP_disk
  <= get_distance JP_KEK_CRC_02_disk UKI_SOUTHGRID_RALPP_disk
  /\ get_distance RAL_LCG22_tape UKI_SOUTHGRID_RALPP_disk
     <= get_distance Examples.UKI_SOUTHGRID_OX_HEP_disk UKI_SOUTHGRID_RALPP_disk.
Proof.
  split.
  - apply (get_distance_monotone RAL_LCG22_tape JP_KEK_CRC_02_disk
             UKI_SOUTHGRID_RALPP_disk).
    vm_compute. lia.
  - apply (get_distance_monotone RAL_LCG22_tape Examples.UKI_SOUTHGRID_OX_HEP_disk
             UKI_SOUTHGRID_RALPP_disk).
    vm_compute. lia.
Defined.

(** C6. The distance is symmetric, the distance of an element to itself is
    the negated number of ['/'] in its location, and for the locations
    [/europe/uk/ral], [/europe/uk/ral] and [/asia/jp/kek] the distances are
    -3 and -1. *)
Theorem get_distance_symmetric :
  (forall a b, get_distance a b = get_distance b a)
  /\ (forall a, get_distance a a = - Z.of_nat (count_char slash (location a)))
  /\ (location RAL_LCG22_tape = "/europe/uk/ral"
      /\ location UKI_SOUTHGRID_RALPP_disk = "/europe/uk/ral"
      /\ location JP_KEK_CRC_02_disk = "/asia/jp/kek"
      /\ get_distance RAL_LCG22_tape UKI_SOUTHGRID_RALPP_disk = -3
      /\ get_distance RAL_LCG22_tape JP_KEK_CRC_02_disk = -1).
Proof.
  split; [|split].
  - intros a b. unfold get_distance. now rewrite commonprefix_comm.
  - intros a. unfold get_distance. now rewrite commonprefix_diag.
  - repeat split.
Qed.

(** C7. [get_SE_by_path] goes through the registry in registration order
    and returns the first element whose host is a substring of the
    locator; it returns [None] when the host of no registered element is a
    substring of the locator. *)
Theorem get_SE_by_path_first_match (path : string) :
  match get_SE_by_path path with
  | Some SE =>
      exists i : nat,
        SEs !! i = Some SE
        /\ (exists pre post, path = pre +:+ host SE +:+ post)
        /\ forall (j : nat) SE', (j < i)%nat -> SEs !! j = Some SE' ->
             ~ exists pre post, path = pre +:+ host SE' +:+ post
  | None =>
      forall SE, In SE SEs ->
        ~ exists pre post, path = pre +:+ host SE +:+ post
  end.
Proof. apply get_SE_by_path_in_spec. Qed.

End Storage.

(** ** The result cache *)

Section ResultCache.
Import cache.
Context {W Args V : Type} `{Clock W} `{Hashing Args}.

(** An argument list with a key has no keyword named [self] and can be
    pickled. *)
Lemma hash_ok (args : Args) (key : Z) :
  Cache.hash args = Ok key ->
  bind_args ["self"] args = Ok tt /\ hash_dumps args = Ok key.
Proof.
  unfold Cache.hash. destruct (bind_args ["self"] args) as [[]|e]; [|discriminate].
  now split.
Qed.

(** A lookup only reads: it leaves the cache and the world as they are. *)
Lemma get_entry_reads_only {S} `{Clock S} (args : Args) (c : Cache.t V) (s : S) :
  snd (Cache.get_entry args (c, s)) = (c, s).
Proof.
  unfold Cache.get_entry, bind, of_result.
  destruct (bind_args ["self"] args); [|reflexivity].
  destruct (Cache.hash args) as [key|]; [|reflexivity].
  unfold Cache.self, CacheEntry.is_valid, time, raise, ret. simpl.
  destruct (Cache.cache c !! key) as [entry|]; [|reflexivity].
  destruct (CacheEntry.creation_time entry); [|reflexivity].
  simpl. now destruct (_ >? _).
Qed.

(** What a wrapped call does once the lookup has found no valid entry:
    it calls the operation, and stores the value unless a keyword
    argument is named like a parameter of [add_entry]. *)
Lemma cached_on_miss {S} `{Clock S} (function : Args -> M S V) (c : Cache.t V)
    (args : Args) (key : Z) (s : S) :
  Cache.hash args = Ok key ->
  Cache.get_entry args (c, s) = (Ok None, (c, s)) ->
  Cache.cached function args (c, s) =
    match function args s with
    | (Ok v, s') =>
        if clashes ["self"; "value"] args then (Err TypeError, (c, s'))
        else (Ok v, (stored c key v (clock s'), s'))
    | (Err e, s') => (Err e, (c, s'))
    end.
Proof.
  intros Hkey Hmiss. unfold Cache.cached, bind at 1. rewrite Hmiss.
  unfold bind at 1, Cache.outside. simpl.
  destruct (function args s) as [[v|e] s']; [|reflexivity].
  unfold Cache.add_entry, bind_args, bind, of_result.
  destruct (clashes ["self"; "value"] args); [reflexivity |].
  now rewrite Hkey.
Qed.

(** What a wrapped call does when an entry is stored under the key of its
    arguments: it answers from the cache before the entry expires and calls
    the operation once it has. *)
Lemma cached_on_entry (function : Args -> M W V) (c : Cache.t V) (args : Args)
    (key : Z) (entry : CacheEntry.t V) (created : Z) (w : W) (n : nat) :
  Cache.hash args = Ok key ->
  Cache.cache c !! key = Some entry ->
  CacheEntry.creation_time entry = Some created ->
  Cache.cached (counted function) args (c, (w, n)) =
    if clock w <? created + CacheEntry.cache_time entry
    then (Ok (CacheEntry.value entry), (c, (w, n)))
    else match function args w with
         | (Ok v, w') =>
             if clashes ["self"; "value"] args then (Err TypeError, (c, (w', S n)))
             else (Ok v, (stored c key v (clock w'), (w', S n)))
         | (Err e, w') => (Err e, (c, (w', S n)))
         end.
Proof.
  intros Hkey Hentry Hcreated.
  assert (Cache.get_entry args (c, (w, n))
          = (Ok (if clock w <? created + CacheEntry.cache_time entry
                 then Some entry else None), (c, (w, n)))) as Hget.
  { destruct (hash_ok args key Hkey) as [Hself _].
    unfold Cache.get_entry, bind, of_result. rewrite Hself, Hkey.
    unfold Cache.self, CacheEntry.is_valid, time, raise, ret, bind. simpl.
    rewrite Hentry, Hcreated. simpl.
    unfold clock at 1, Cache.Clock_pair, clock, Clock_counted. simpl.
    rewrite Z.gtb_ltb. now destruct (_ <? _). }
  destruct (clock w <? created + CacheEntry.cache_time entry).
  - unfold Cache.cached, bind at 1. now rewrite Hget.
  - rewrite (cached_on_miss _ _ _ key _ Hkey Hget). unfold counted. simpl.
    destruct (function args w) as [[v|e] w']; reflexivity.
Qed.

(** C4, amended. For an argument list that has a key (it can be pickled
    and has no keyword named [self]) and no keyword named [value], a
    wrapped call answers from the cache exactly when the current time is
    strictly before the creation time of the stored entry plus its time
    to live. After a first call that found no valid entry and succeeded,
    a second call with the same arguments before the entry expires
    returns the stored value and leaves the call counter at one; a call
    at or after the expiry invokes the operation again. *)
Theorem cached_hit_iff_within_ttl (function : Args -> M W V) (c : Cache.t V)
    (args : Args) (key : Z) :
  Cache.hash args = Ok key ->
  clashes ["self"; "value"] args = false ->
  (forall entry created w n,
     Cache.cache c !! key = Some entry ->
     CacheEntry.creation_time entry = Some created ->
     Cache.cached (counted function) args (c, (w, n)) =
       if clock w <? created + CacheEntry.cache_time entry
       then (Ok (CacheEntry.value entry), (c, (w, n)))
       else match function args w with
            | (Ok v, w') => (Ok v, (stored c key v (clock w'), (w', S n)))
            | (Err e, w') => (Err e, (c, (w', S n)))
            end)
  /\ (forall w0 v w1 w2,
        Cache.get_entry args (c, (w0, O)) = (Ok None, (c, (w0, O))) ->
        function args w0 = (Ok v, w1) ->
        let c1 := stored c key v (clock w1) in
        Cache.cached (counted function) args (c, (w0, O)) = (Ok v, (c1, (w1, 1%nat)))
        /\ (clock w2 < clock w1 + Cache.cache_time c ->
            Cache.cached (counted function) args (c1, (w2, 1%nat))
            = (Ok v, (c1, (w2, 1%nat))))
        /\ (clock w1 + Cache.cache_time c <= clock w2 ->
            exists r c2 w3,
              Cache.cached (counted function) args (c1, (w2, 1%nat))
              = (r, (c2, (w3, 2%nat))))).
Proof.
  intros Hkey Hbinds. split.
  - intros entry created w n Hentry Hcreated.
    rewrite (cached_on_entry _ _ _ key _ _ _ _ Hkey Hentry Hcreated).
    now rewrite Hbinds.
  - intros w0 v w1 w2 Hmiss Hcall c1.
    assert (Cache.cache c1 !! key
            = Some {| CacheEntry.value := v;
                      CacheEntry.creation_time := Some (clock w1);
                      CacheEntry.cache_time := Cache.cache_time c |}) as Hc1.
    { unfold c1, stored. simpl. apply lookup_insert_eq. }
    split; [|split].
    + rewrite (cached_on_miss _ _ _ key _ Hkey Hmiss). unfold counted. simpl.
      rewrite Hcall, Hbinds. reflexivity.
    + intros Hwithin.
      rewrite (cached_on_entry _ _ _ key _ _ _ _ Hkey Hc1 eq_refl). simpl.
      destruct (Z.ltb_spec (clock w2) (clock w1 + Cache.cache_time c));
        [reflexivity | lia].
    + intros Hafter.
      rewrite (cached_on_entry _ _ _ key _ _ _ _ Hkey Hc1 eq_refl). simpl.
      destruct (Z.ltb_spec (clock w2) (clock w1 + Cache.cache_time c)); [lia |].
      rewrite Hbinds.
      destruct (function args w2) as [[v2|e] w3]; eauto.
Qed.

(** C8. When the wrapped operation fails, the cache is the same after the
    call as before it, and when the call reaches the operation (the lookup
    found no valid entry) the failure is what the caller gets. *)
Theorem cached_never_caches_error (function : Args -> M W V) (c : Cache.t V)
    (args : Args) (w w' : W) (e : exn) :
  function args w = (Err e, w') ->
  fst (snd (Cache.cached function args (c, w))) = c
  /\ (Cache.get_entry args (c, w) = (Ok None, (c, w)) ->
      Cache.cached function args (c, w) = (Err e, (c, w'))).
Proof.
  intros Hfail. split.
  - pose proof (get_entry_reads_only args c w) as Hread.
    unfold Cache.cached, bind at 1.
    destruct (Cache.get_entry args (c, w)) as [[[entry|]|e0] s]; simpl in Hread;
      subst s; try reflexivity.
    unfold bind, Cache.outside. simpl. now rewrite Hfail.
  - intros Hmiss. unfold Cache.cached, bind at 1. rewrite Hmiss.
    unfold bind, Cache.outside. simpl. now rewrite Hfail.
Qed.

(** C10. An entry constructed with an explicit creation time does not have
    the attribute [creation_time], and every validity check of it raises
    [AttributeError]. *)
Theorem CacheEntry_explicit_creation_time_lost (value : V) (creation_time cache_time : Z)
    (w : W) :
  exists entry,
    CacheEntry.init value (Some creation_time) cache_time w = (Ok entry, w)
    /\ CacheEntry.creation_time entry = None
    /\ forall w', CacheEntry.is_valid entry w' = (Err AttributeError, w').
Proof.
  eexists. split; [reflexivity |]. split; reflexivity.
Qed.

End ResultCache.

Section ResultCacheWitnesses.
Import cache Examples.

(** The operation [double] behind a cache of 60 ticks: a value stored at
    tick 1 is served at ticks 30 and 60 and computed again at tick 61. *)
Lemma cached_hit_iff_within_ttl_witness :
  Cache.cached (counted double) 21 (stored (Cache.init 60) 21 42 1, (30, 1%nat))
  = (Ok 42, (stored (Cache.init 60) 21 42 1, (30, 1%nat)))
  /\ Cache.cached (counted double) 21 (Cache.init 60, (0, O))
     = (Ok 42, (stored (Cache.init 60) 21 42 1, (1, 1%nat)))
  /\ (exists r c2 w3,
        Cache.cached (counted double) 21 (stored (Cache.init 60) 21 42 1, (61, 1%nat))
        = (r, (c2, (w3, 2%nat))))
  /\ Cache.cached (counted double) 21 (stored (Cache.init 60) 21 42 1, (60, 5%nat))
     = (Ok 42, (stored (Cache.init 60) 21 42 1, (60, 5%nat))).
Proof.
  destruct (cached_hit_iff_within_ttl double (Cache.init 60) 21 21)
    as [_ Htwo]; [reflexivity | reflexivity |].
  destruct (cached_hit_iff_within_ttl double (stored (Cache.init 60) 21 42 1) 21 21)
    as [Hentry _]; [reflexivity | reflexivity |].
  destruct (Htwo 0 42 1 30 eq_refl eq_refl) as [Hfirst [Hhit _]].
  destruct (Htwo 0 42 1 61 eq_refl eq_refl) as [_ [_ Hagain]].
  split; [|split; [|split]].
  - apply Hhit. vm_compute. reflexivity.
  - exact Hfirst.
  - apply Hagain. vm_compute. discriminate.
  - exact (Hentry _ 1 60 5%nat eq_refl eq_refl).
Defined.

(** C4, as stated, fails. With a keyword argument named [value] two
    calls within the time to live both invoke the operation and both
    raise [TypeError], and nothing is stored; with arguments that cannot
    be pickled the operation is not invoked at all. *)
Lemma cached_not_for_every_argument_list :
  let keyword_value := {| positional := 21; named := [("value", 3)]; picklable := true |} in
  let unpicklable := {| positional := 21; named := []; picklable := false |} in
  Cache.cached (counted double_call) keyword_value (Cache.init 60, (0, O))
  = (Err TypeError, (Cache.init 60, (1, 1%nat)))
  /\ Cache.cached (counted double_call) keyword_value (Cache.init 60, (1, 1%nat))
     = (Err TypeError, (Cache.init 60, (2, 2%nat)))
  /\ Cache.cached (counted double_call) unpicklable (Cache.init (V := Z) 60, (0, O))
     = (Err PicklingError, (Cache.init 60, (0, O))).
Proof. repeat split. Qed.

(** [double] fails on -1: the failure comes back and the cache stays
    empty. *)
Lemma cached_never_caches_error_witness :
  fst (snd (Cache.cached double (-1) (Cache.init 60, 0))) = Cache.init 60
  /\ Cache.cached double (-1) (Cache.init 60, 0)
     = (Err (ErrorReturnCode 1 "negative"), (Cache.init 60, 1)).
Proof.
  destruct (cached_never_caches_error double (Cache.init 60) (-1) 0 1
              (ErrorReturnCode 1 "negative") eq_refl) as [Hsame Hprop].
  split; [exact Hsame | apply Hprop; reflexivity].
Defined.

End ResultCacheWitnesses.

(** ** Output shapes *)

Section OutputShapeFacts.
Import Py backends.
Context {S : Type}.

Lemma length_split_char (c : ascii) (s : string) :
  length (split_char c s) = Datatypes.S (count_char c s).
Proof.
  induction s as [|d s IH]; simpl; [reflexivity |].
  destruct (Ascii.eqb d c); simpl; [now rewrite IH |].
  destruct (split_char c s); simpl in *; lia.
Qed.

(** The lines of a text that ends with a line terminator: as many as the
    text has terminators, and joined they are the text. *)
Lemma lines_of_terminated_text (r : string) :
  let lines :=
    map (fun line => line +:+ String newline "")
      (drop_last (split_char newline (r +:+ String newline ""))) in
  concat_lines lines = r +:+ String newline ""
  /\ length lines = count_char newline (r +:+ String newline "").
Proof.
  simpl. unfold drop_last.
  rewrite split_char_terminated, removelast_snoc, concat_split_char.
  split; [reflexivity |].
  rewrite length_map, length_split_char, count_char_append. simpl. lia.
Qed.

(** [_iterable_output_from_text] on a text that ends with a line
    terminator, for any options. *)
Lemma from_text_terminated (text : string) (kw : kwargs) :
  last_char text = Some newline ->
  exists lines,
    concat_lines lines = text
    /\ length lines = count_char newline text
    /\ _iterable_output_from_text (S := S) text kw
       = Ok (if eq_bool (default (PBool false) (kw !! "_iter")) false
             then Text text else Iter (ret lines)).
Proof.
  intros Hlast. destruct (last_char_inv _ _ Hlast) as [r ->].
  destruct (lines_of_terminated_text r) as [Hjoin Hlen].
  eexists. split; [exact Hjoin |]. split; [exact Hlen |].
  unfold _iterable_output_from_text, pop.
  destruct (eq_bool _ false); [reflexivity |].
  rewrite Hlast, Ascii.eqb_refl. reflexivity.
Qed.

(** Joining the lines of a pure iterable. *)
Lemma from_iterable_join (lines : list string) (s : S) :
  _iterable_output_from_iterable (ret lines) ∅ s = (Ok (Text (concat_lines lines)), s).
Proof. reflexivity. Qed.

(** A text without a final line terminator gains one on the way through
    the lines. *)
Lemma split_then_join_unterminated (text : string) (c : ascii) (s : S) :
  last_char text = Some c -> c <> newline ->
  split_then_join text s = (Ok (Text (text +:+ String newline "")), s).
Proof.
  intros Hlast Hc. unfold split_then_join, _iterable_output_from_text, pop.
  rewrite lookup_insert_eq. simpl. rewrite Hlast.
  destruct (Ascii.eqb c newline) eqn:E; [apply Ascii.eqb_eq in E; contradiction |].
  unfold bind, of_result. simpl. unfold _iterable_output_from_iterable, pop.
  rewrite lookup_empty. simpl. unfold bind, ret.
  now rewrite concat_split_char.
Qed.

(** C1, as stated, fails: the text ["a"] comes back as ["a"] followed by a
    line terminator. *)
Lemma split_then_join_not_lossless :
  split_then_join (S := unit) "a" tt = (Ok (Text ("a" +:+ String newline "")), tt)
  /\ split_then_join (S := unit) "a" tt <> (Ok (Text "a"), tt).
Proof. split; [reflexivity | discriminate]. Qed.

(** On the empty text the test of the last character raises
    [IndexError]. *)
Lemma split_then_join_empty_raises :
  split_then_join (S := unit) "" tt = (Err IndexError, tt).
Proof. reflexivity. Qed.

(** C1, amended. For every text that ends with a line terminator the
    split yields one line per terminator, with no empty element after the
    last one, and joining the lines gives the text back. *)
Theorem split_then_join_terminated (text : string) :
  last_char text = Some newline ->
  exists lines,
    _iterable_output_from_text (S := S) text (<["_iter" := PBool true]> ∅)
    = Ok (Iter (ret lines))
    /\ length lines = count_char newline text
    /\ (forall s : S,
          _iterable_output_from_iterable (ret lines) ∅ s = (Ok (Text text), s))
    /\ (forall s : S, split_then_join text s = (Ok (Text text), s)).
Proof.
  intros Hlast.
  destruct (from_text_terminated text (<["_iter" := PBool true]> ∅) Hlast)
    as [lines [Hjoin [Hlen Hsplit]]].
  rewrite lookup_insert_eq in Hsplit. simpl in Hsplit.
  exists lines. split; [exact Hsplit |]. split; [exact Hlen |].
  split; intros s.
  - now rewrite from_iterable_join, Hjoin.
  - unfold split_then_join. rewrite Hsplit. unfold bind, of_result. simpl.
    now rewrite from_iterable_join, Hjoin.
Qed.

End OutputShapeFacts.

(** The text of two terminated lines goes through two lines and back. *)
Lemma split_then_join_terminated_witness :
  exists lines,
    backends._iterable_output_from_text (S := unit)
      ("a" +:+ String Py.newline "b" +:+ String Py.newline "")
      (<["_iter" := backends.PBool true]> ∅)
    = Py.Ok (backends.Iter (Monad.ret lines))
    /\ length lines = 2%nat
    /\ backends.split_then_join ("a" +:+ String Py.newline "b" +:+ String Py.newline "") tt
       = (Py.Ok (backends.Text ("a" +:+ String Py.newline "b" +:+ String Py.newline "")), tt).
Proof.
  destruct (split_then_join_terminated (S := unit)
              ("a" +:+ String Py.newline "b" +:+ String Py.newline "") eq_refl)
    as [lines [Hsplit [Hlen [_ Hround]]]].
  exists lines. split; [exact Hsplit |]. split; [exact Hlen | apply Hround].
Defined.

(** ** Replication *)

Section Replicate.
Import Py storage backends.
Context {E : Env} {B : Backend}.

Lemma last_char_app_r (s t : string) :
  t <> "" -> last_char (s +:+ t) = last_char t.
Proof.
  intros Ht. induction s as [|c s IH]; simpl; [reflexivity |].
  destruct (s +:+ t) eqn:Es; [|exact IH].
  destruct s; simpl in Es; [contradiction | discriminate].
Qed.




End Replicate.



(** ** Recursive replication with the LCG backend *)

Section RecursiveReplicate.
Import Py storage backends.
Context {E : Env} (base : string).







Lemma bind_assoc {S A B C} (m : M S A) (k : A -> M S B) (h : B -> M S C) (s : S) :
  (y <- (x <- m ;; k x) ;; h y) s = (x <- m ;; y <- k x ;; h y) s.
Proof. unfold bind. destruct (m s) as [[a|e] s']; reflexivity. Qed.

Section OnGrid.
Context {B : Backend}.

Lemma on_grid_run {A} (m : M G A) (w : World) (r : result A) (g : G) :
  m (grid w) = (r, g) ->
  on_grid m w = (r, {| grid := g; replicate_calls := replicate_calls w |}).
Proof. intros Hm. unfold on_grid. now rewrite Hm. Qed.

Lemma iterate_lift_output (out : output G) (w : World) :
  iterate (lift_output out) w = on_grid (iterate out) w.
Proof. destruct out, w; reflexivity. Qed.

Lemma on_grid_bind {A C} (m : M G A) (k : A -> M G C) (w : World) :
  on_grid (x <- m ;; k x) w = (x <- on_grid m ;; on_grid (k x)) w.
Proof.
  unfold on_grid, bind. destruct (m (grid w)) as [[a|e] g]; reflexivity.
Qed.

End OnGrid.












End RecursiveReplicate.

(** ** The small grid *)

Section SmallGrid.
Import Py storage backends Examples.
Variable a_status : Z.

#[local] Instance small_grid : Env := demo_env a_status.
#[local] Instance small_backend : Backend := LCGBackend "/t2k.org".



End SmallGrid.

Section SmallGridRuns.
Import Py storage backends Examples.



(** An error that [replicate] raises itself for a child, here a named
    source without a replica, is not caught: it ends the batch before any
    transfer. *)
Lemma replicate_child_resolution_error_ends_batch :
  demo_replicate 1 2 (Some "JP-KEK-CRC-02-disk") false (RecBool true) ∅
  = (Err (ErrorReturnCode 1
            ("/data/a.txt"
             +:+ String newline "No replica present at source storage element JP-KEK-CRC-02-disk"
             +:+ String newline "")),
     demo_world 1).
Proof. reflexivity. Qed.




End SmallGridRuns.

(** * Further properties *)

(** ** The result cache: sweeping, invariants, keys *)

Section ResultCacheSweep.
Import cache.
Context {W Args V : Type} `{Clock W} `{Hashing Args}.

(** The loop of [clean_cache] on entries that all have a creation time:
    it ends normally, and a key is gone afterwards exactly when the loop
    met an expired entry listed with it. *)
Lemma clean_items_run (items : list (Z * CacheEntry.t V)) (c : Cache.t V) (w : W) :
  (forall key entry, In (key, entry) items ->
     CacheEntry.creation_time entry <> None) ->
  exists m',
    Cache.clean_items items (c, w)
    = (Ok tt, ({| Cache.cache_time := Cache.cache_time c; Cache.cache := m' |}, w))
    /\ forall key,
         m' !! key
         = if existsb (fun item => (fst item =? key) && negb (valid_at (clock w) (snd item)))
                items
           then None else Cache.cache c !! key.
Proof.
  revert c. induction items as [|[key0 entry0] items IH]; intros c Hwf.
  - exists (Cache.cache c). split; [now destruct c | reflexivity].
  - assert (CacheEntry.creation_time entry0 <> None) as Hct
      by (apply (Hwf key0); now left).
    destruct (CacheEntry.creation_time entry0) as [created|] eqn:Ecreated;
      [clear Hct | contradiction].
    cbn [Cache.clean_items]. unfold bind at 1. unfold CacheEntry.is_valid.
    rewrite Ecreated. unfold bind at 1, time, ret at 1. cbn [fst snd].
    change (clock (c, w)) with (clock w).
    assert (valid_at (clock w) entry0
            = (created + CacheEntry.cache_time entry0 >? clock w)) as Hv
      by (unfold valid_at; now rewrite Ecreated).
    destruct (created + CacheEntry.cache_time entry0 >? clock w) eqn:Evalid.
    + unfold bind at 1, ret at 1.
      destruct (IH c) as [m' [Hrun Hlookup]];
        [intros k e Hin; apply (Hwf k); now right |].
      exists m'. split; [exact Hrun |].
      intros key. rewrite Hlookup. cbn [existsb fst snd].
      rewrite Hv. cbn [negb]. now rewrite andb_false_r.
    + unfold bind at 1. cbn [fst snd].
      destruct (IH {| Cache.cache_time := Cache.cache_time c;
                      Cache.cache := delete key0 (Cache.cache c) |})
        as [m' [Hrun Hlookup]];
        [intros k e Hin; apply (Hwf k); now right |].
      exists m'. split; [exact Hrun |].
      intros key. rewrite Hlookup. cbn [Cache.cache existsb fst snd].
      rewrite Hv. cbn [negb]. rewrite andb_true_r.
      destruct (Z.eqb_spec key0 key) as [->|Hne]; cbn [orb].
      * rewrite lookup_delete_eq. now destruct (existsb _ items).
      * now rewrite lookup_delete_ne.
Qed.

(** Whether the listing of a map holds an expired entry under a key. *)
Lemma expired_in_listing (m : gmap Z (CacheEntry.t V)) (now key : Z) :
  existsb (fun item => (fst item =? key) && negb (valid_at now (snd item)))
    (map_to_list m)
  = match m !! key with
    | Some entry => negb (valid_at now entry)
    | None => false
    end.
Proof.
  destruct (existsb _ _) eqn:Ex.
  - apply existsb_exists in Ex as [[k e] [Hin Hk]]. cbn [fst snd] in Hk.
    apply andb_true_iff in Hk as [Hk Hinv]. apply Z.eqb_eq in Hk. subst k.
    apply list_elem_of_In, elem_of_map_to_list in Hin. now rewrite Hin.
  - destruct (m !! key) as [entry|] eqn:Hm; [|reflexivity].
    destruct (valid_at now entry) eqn:Hvalid; [reflexivity |].
    assert (existsb (fun item => (fst item =? key) && negb (valid_at now (snd item)))
              (map_to_list m) = true) as Habsurd; [|congruence].
    apply existsb_exists. exists (key, entry). split.
    + now apply list_elem_of_In, elem_of_map_to_list.
    + cbn [fst snd]. now rewrite Z.eqb_refl, Hvalid.
Qed.

(** What [clean_cache] does to a cache whose entries all have a creation
    time. *)
Lemma clean_cache_run (c : Cache.t V) (w : W) :
  well_formed c ->
  exists c',
    Cache.clean_cache (c, w) = (Ok tt, (c', w))
    /\ Cache.cache_time c' = Cache.cache_time c
    /\ forall key,
         Cache.cache c' !! key
         = match Cache.cache c !! key with
           | Some entry => if valid_at (clock w) entry then Some entry else None
           | None => None
           end.
Proof.
  intros Hwf.
  destruct (clean_items_run (map_to_list (Cache.cache c)) c w) as [m' [Hrun Hlookup]].
  { intros key entry Hin. apply (Hwf key).
    now apply list_elem_of_In, elem_of_map_to_list in Hin. }
  eexists. split; [|split].
  - unfold Cache.clean_cache, bind, Cache.self. cbn [fst snd]. exact Hrun.
  - reflexivity.
  - intros key. cbn [Cache.cache]. rewrite Hlookup, expired_in_listing.
    destruct (Cache.cache c !! key) as [entry|]; [|reflexivity].
    now destruct (valid_at (clock w) entry).
Qed.

(** X1. On a cache whose entries all have a creation time [clean_cache]
    ends normally, leaves the world and the cache time alone, and keeps
    exactly the entries that are valid at the time of the call. *)
Theorem clean_cache_keeps_valid_entries (c : Cache.t V) (w : W) :
  well_formed c ->
  exists c',
    Cache.clean_cache (c, w) = (Ok tt, (c', w))
    /\ Cache.cache_time c' = Cache.cache_time c
    /\ forall key,
         Cache.cache c' !! key
         = match Cache.cache c !! key with
           | Some entry => if valid_at (clock w) entry then Some entry else None
           | None => None
           end.
Proof. apply clean_cache_run. Qed.

(** The answer of a lookup, read off the dictionary. *)
Lemma get_entry_answer (args : Args) (c : Cache.t V) (w : W) :
  fst (Cache.get_entry args (c, w))
  = match Cache.hash args with
    | Ok key =>
        match Cache.cache c !! key with
        | Some entry =>
            match CacheEntry.creation_time entry with
            | Some _ => Ok (if valid_at (clock w) entry then Some entry else None)
            | None => Err AttributeError
            end
        | None => Ok None
        end
    | Err e => Err e
    end.
Proof.
  unfold Cache.get_entry, bind, of_result, Cache.hash.
  destruct (bind_args ["self"] args) as [[]|e0]; [|reflexivity].
  destruct (hash_dumps args) as [key|e0]; [|reflexivity].
  unfold Cache.self, CacheEntry.is_valid, time, raise, ret, valid_at.
  cbn [fst snd].
  destruct (Cache.cache c !! key) as [entry|]; [|reflexivity].
  destruct (CacheEntry.creation_time entry) as [created|]; [|reflexivity].
  unfold bind. cbn [fst snd]. change (clock (c, w)) with (clock w).
  now destruct (created + CacheEntry.cache_time entry >? clock w).
Qed.

(** X2. Sweeping is not visible through a lookup: on a cache whose entries
    all have a creation time, [get_entry] gives the same answer after
    [clean_cache] as without it. *)
Theorem get_entry_after_clean_cache (c : Cache.t V) (w : W) (args : Args) :
  well_formed c ->
  fst ((_ <- Cache.clean_cache ;; Cache.get_entry args) (c, w))
  = fst (Cache.get_entry args (c, w)).
Proof.
  intros Hwf.
  destruct (clean_cache_run c w Hwf) as [c' [Hrun [_ Hlookup]]].
  unfold bind at 1. rewrite Hrun. rewrite !get_entry_answer.
  destruct (Cache.hash args) as [key|e]; [|reflexivity]. rewrite Hlookup.
  destruct (Cache.cache c !! key) as [entry|] eqn:Hentry; [|reflexivity].
  specialize (Hwf _ _ Hentry).
  destruct (valid_at (clock w) entry) eqn:Hvalid.
  - now rewrite Hvalid.
  - now destruct (CacheEntry.creation_time entry).
Qed.

End ResultCacheSweep.

Section ResultCacheInvariants.
Import cache.
Context {W Args V : Type} `{Clock W} `{Hashing Args}.

Lemma well_formed_init (cache_time : Z) : well_formed (Cache.init (V := V) cache_time).
Proof. intros key entry Hlookup. cbn in Hlookup. now rewrite lookup_empty in Hlookup. Qed.

Lemma well_formed_stored (c : Cache.t V) (key : Z) (v : V) (now : Z) :
  well_formed c -> well_formed (stored c key v now).
Proof.
  intros Hwf key' entry. unfold stored. cbn [Cache.cache].
  rewrite lookup_insert. destruct (decide (key = key')) as [_|_].
  - intros [= <-]. discriminate.
  - apply Hwf.
Qed.

(** The ways a wrapped call can go. The arguments have no key (a keyword
    named [self], or arguments that cannot be pickled) and the lookup
    raises; or they have one, and the lookup fails on an entry without
    creation time, answers from the cache, or finds nothing valid, in
    which case the operation is called. *)
Lemma cached_cases (function : Args -> M W V) (c : Cache.t V) (args : Args) (w : W) :
  (exists e,
     Cache.hash args = Err e
     /\ Cache.cached function args (c, w) = (Err e, (c, w)))
  \/ exists key,
       Cache.hash args = Ok key
       /\ ((exists entry,
              Cache.cache c !! key = Some entry
              /\ CacheEntry.creation_time entry = None
              /\ Cache.cached function args (c, w) = (Err AttributeError, (c, w)))
           \/ (exists entry,
                 Cache.cache c !! key = Some entry
                 /\ valid_at (clock w) entry = true
                 /\ Cache.cached function args (c, w)
                    = (Ok (CacheEntry.value entry), (c, w)))
           \/ Cache.cached function args (c, w)
              = match function args w with
                | (Ok v, w') =>
                    if clashes ["self"; "value"] args then (Err TypeError, (c, w'))
                    else (Ok v, (stored c key v (clock w'), w'))
                | (Err e, w') => (Err e, (c, w'))
                end).
Proof.
  pose proof (get_entry_answer args c w) as Hanswer.
  pose proof (get_entry_reads_only args c w) as Hstate.
  destruct (Cache.get_entry args (c, w)) as [r s] eqn:Hget.
  cbn [fst snd] in Hanswer, Hstate. subst s.
  destruct (Cache.hash args) as [key|e] eqn:Hkey.
  - right. exists key. split; [reflexivity |].
    destruct (Cache.cache c !! key) as [entry|] eqn:Hentry.
    + destruct (CacheEntry.creation_time entry) as [created|] eqn:Ecreated.
      * destruct (valid_at (clock w) entry) eqn:Hvalid; subst r.
        -- right. left. exists entry. split; [reflexivity |]. split; [exact Hvalid |].
           unfold Cache.cached, bind at 1. now rewrite Hget.
        -- right. right. now apply cached_on_miss.
      * left. exists entry. split; [reflexivity |]. split; [exact Ecreated |].
        subst r. unfold Cache.cached, bind at 1. now rewrite Hget.
    + right. right. subst r. now apply cached_on_miss.
  - left. exists e. split; [reflexivity |]. subst r.
    unfold Cache.cached, bind at 1. now rewrite Hget.
Qed.

(** X3. Wrapped calls keep the cache well formed, every entry with its
    creation time, for every argument list. On a well-formed cache the
    lookup adds no error of its own: what a wrapped call raises is the
    error of the arguments (a keyword named [self], arguments that
    cannot be pickled), the error of the operation, or, after the
    operation has returned, the [TypeError] of a keyword named
    [value]. *)
Theorem cached_keeps_well_formed (function : Args -> M W V) (c : Cache.t V)
    (args : Args) (w : W) :
  well_formed c ->
  well_formed (fst (snd (Cache.cached function args (c, w))))
  /\ forall e s', Cache.cached function args (c, w) = (Err e, s') ->
       Cache.hash args = Err e
       \/ (exists w', function args w = (Err e, w'))
       \/ (e = TypeError
           /\ clashes ["self"; "value"] args = true
           /\ exists v w', function args w = (Ok v, w')).
Proof.
  intros Hwf.
  destruct (cached_cases function c args w)
    as [[e0 [Hkey Herr]]
       | [key [Hkey [[entry [Hentry [Hnone _]]] | [[entry [_ [_ Hhit]]] | Hmiss]]]]].
  - rewrite Herr. split; [exact Hwf |]. intros e s' [= <- _]. now left.
  - now apply Hwf in Hentry.
  - rewrite Hhit. split; [exact Hwf | discriminate].
  - rewrite Hmiss. destruct (function args w) as [[v|e0] w'].
    + destruct (clashes ["self"; "value"] args) eqn:Hclash.
      * split; [exact Hwf |]. intros e s' [= <- _]. right. right. eauto.
      * split; [now apply well_formed_stored | discriminate].
    + split; [exact Hwf |]. intros e s' [= <- _]. right. left. now exists w'.
Qed.

(** X4. A wrapped call changes the dictionary at most under the key of
    its own arguments, and not at all when they have none. *)
Theorem cached_other_keys_untouched (function : Args -> M W V) (c : Cache.t V)
    (args : Args) (w : W) (key : Z) :
  Cache.hash args <> Ok key ->
  Cache.cache (fst (snd (Cache.cached function args (c, w)))) !! key
  = Cache.cache c !! key.
Proof.
  intros Hother.
  destruct (cached_cases function c args w)
    as [[e0 [_ Herr]]
       | [key0 [Hkey [[entry [_ [_ Herr]]] | [[entry [_ [_ Hhit]]] | Hmiss]]]]].
  - now rewrite Herr.
  - now rewrite Herr.
  - now rewrite Hhit.
  - rewrite Hmiss. destruct (function args w) as [[v|e0] w']; [|reflexivity].
    destruct (clashes ["self"; "value"] args); [reflexivity |].
    cbn [fst snd stored Cache.cache]. rewrite lookup_insert_ne; [reflexivity |].
    intros ->. now apply Hother.
Qed.

(** X5. Two argument lists with the same key share one entry: within the
    time to live of a value stored for the first, a call with the second
    returns that value and does not call the operation. *)
Theorem cached_hash_collision (function : Args -> M W V) (c : Cache.t V)
    (args1 args2 : Args) (key : Z) (v : V) (now : Z) (w : W) (n : nat) :
  Cache.hash args1 = Ok key ->
  Cache.hash args2 = Ok key ->
  clock w < now + Cache.cache_time c ->
  Cache.cached (counted function) args2 (stored c key v now, (w, n))
  = (Ok v, (stored c key v now, (w, n))).
Proof.
  intros _ Hkey Hwithin.
  assert (Cache.cache (stored c key v now) !! key
          = Some {| CacheEntry.value := v;
                    CacheEntry.creation_time := Some now;
                    CacheEntry.cache_time := Cache.cache_time c |}) as Hentry.
  { unfold stored. cbn [Cache.cache]. apply lookup_insert_eq. }
  rewrite (cached_on_entry function _ args2 key _ now w n Hkey Hentry eq_refl).
  cbn [CacheEntry.cache_time CacheEntry.value].
  destruct (Z.ltb_spec (clock w) (now + Cache.cache_time c)); [reflexivity | lia].
Qed.

(** X6. With a time to live of zero or less nothing is ever served from
    the cache: a call at or after the time a value was stored calls the
    operation again. *)
Theorem cache_time_nonpositive_never_hits (function : Args -> M W V) (c : Cache.t V)
    (args : Args) (key : Z) (v : V) (now : Z) (w : W) (n : nat) :
  Cache.hash args = Ok key ->
  Cache.cache_time c <= 0 ->
  now <= clock w ->
  snd (snd (snd (Cache.cached (counted function) args (stored c key v now, (w, n)))))
  = S n.
Proof.
  intros Hkey Httl Hlater.
  assert (Cache.cache (stored c key v now) !! key
          = Some {| CacheEntry.value := v;
                    CacheEntry.creation_time := Some now;
                    CacheEntry.cache_time := Cache.cache_time c |}) as Hentry.
  { unfold stored. cbn [Cache.cache]. apply lookup_insert_eq. }
  rewrite (cached_on_entry function _ args key _ now w n Hkey Hentry eq_refl).
  cbn [CacheEntry.cache_time CacheEntry.value].
  destruct (Z.ltb_spec (clock w) (now + Cache.cache_time c)); [lia |].
  destruct (function args w) as [[v'|e] w']; [|reflexivity].
  now destruct (clashes ["self"; "value"] args).
Qed.

(** The loop of [clean_cache] on a listing with an entry that has no
    creation time. *)
Lemma clean_items_attribute_error (items : list (Z * CacheEntry.t V)) (key : Z)
    (entry : CacheEntry.t V) (s : Cache.t V * W) :
  In (key, entry) items ->
  CacheEntry.creation_time entry = None ->
  fst (Cache.clean_items items s) = Err AttributeError.
Proof.
  revert s. induction items as [|[key0 entry0] items IH]; intros s Hin Hnone;
    [contradiction |].
  cbn [Cache.clean_items]. unfold bind at 1, CacheEntry.is_valid.
  destruct (CacheEntry.creation_time entry0) as [created|] eqn:Ecreated.
  - destruct Hin as [[= -> ->]|Hin]; [congruence |].
    unfold bind at 1, time, ret at 1. cbn [fst snd].
    destruct (created + CacheEntry.cache_time entry0 >? clock s);
      unfold bind at 1; [unfold ret at 1 |]; now apply IH.
  - reflexivity.
Qed.

(** X7. An entry without creation time in the dictionary makes
    [clean_cache] raise [AttributeError], and so does every wrapped call
    whose arguments hash to its key. *)
Theorem entry_without_creation_time_raises (function : Args -> M W V)
    (c : Cache.t V) (key : Z) (entry : CacheEntry.t V) (w : W) :
  Cache.cache c !! key = Some entry ->
  CacheEntry.creation_time entry = None ->
  fst (Cache.clean_cache (c, w)) = Err AttributeError
  /\ forall args, Cache.hash args = Ok key ->
       Cache.cached function args (c, w) = (Err AttributeError, (c, w)).
Proof.
  intros Hentry Hnone. split.
  - unfold Cache.clean_cache, bind, Cache.self. cbn [fst snd].
    apply (clean_items_attribute_error _ key entry); [|exact Hnone].
    now apply list_elem_of_In, elem_of_map_to_list.
  - intros args Hkey.
    pose proof (get_entry_answer args c w) as Hanswer.
    rewrite Hkey, Hentry, Hnone in Hanswer.
    pose proof (get_entry_reads_only args c w) as Hstate.
    unfold Cache.cached, bind at 1.
    destruct (Cache.get_entry args (c, w)) as [r s]. cbn [fst snd] in *.
    now subst.
Qed.

End ResultCacheInvariants.

Section ResultCacheRuns.
Import cache Examples.

(** A value stored at tick 1 for 60 ticks is swept at tick 100. *)
Lemma clean_cache_keeps_valid_entries_witness :
  exists c',
    Cache.clean_cache (stored (Cache.init 60) 21 42 1, 100) = (Ok tt, (c', 100))
    /\ Cache.cache c' !! 21 = None.
Proof.
  destruct (clean_cache_keeps_valid_entries (stored (Cache.init 60) 21 42 1) 100
              (well_formed_stored _ 21 42 1 (well_formed_init 60)))
    as [c' [Hrun [_ Hlookup]]].
  exists c'. split; [exact Hrun |]. rewrite Hlookup. reflexivity.
Defined.

(** At tick 30 the same value is found with or without a sweep. *)
Lemma get_entry_after_clean_cache_witness :
  fst ((_ <- Cache.clean_cache ;; Cache.get_entry 21)
         (stored (Cache.init 60) 21 (42 : Z) 1, 30))
  = fst (Cache.get_entry 21 (stored (Cache.init 60) 21 (42 : Z) 1, 30)).
Proof.
  apply (get_entry_after_clean_cache (stored (Cache.init 60) 21 42 1) 30 21).
  apply well_formed_stored, well_formed_init.
Defined.

(** A first call of [double] on the empty cache leaves a well-formed
    cache. *)
Lemma cached_keeps_well_formed_witness :
  well_formed (fst (snd (Cache.cached double 21 (Cache.init 60, 0)))).
Proof.
  apply (cached_keeps_well_formed double (Cache.init 60) 21 0).
  apply well_formed_init.
Defined.

(** A call for 7 leaves the entry of 21 alone. *)
Lemma cached_other_keys_untouched_witness :
  Cache.cache (fst (snd (Cache.cached double 7 (stored (Cache.init 60) 21 42 1, 5)))) !! 21
  = Cache.cache (stored (Cache.init 60) 21 (42 : Z) 1) !! 21.
Proof.
  apply (cached_other_keys_untouched double (stored (Cache.init 60) 21 42 1) 7 5 21).
  vm_compute. discriminate.
Defined.

(** With the hash "last decimal digit" the arguments 21 and 31 collide:
    the call for 31 gets the value stored for 21. *)
Lemma cached_hash_collision_witness :
  Cache.cached (Args := Z) (H0 := Hashing_last_digit) (counted double) 31
    (stored (Cache.init 60) 1 42 1, (30, 1%nat))
  = (Ok 42, (stored (Cache.init 60) 1 42 1, (30, 1%nat))).
Proof.
  apply (cached_hash_collision (H0 := Hashing_last_digit) double (Cache.init 60)
           21 31 1 42 1 30 1%nat).
  - reflexivity.
  - reflexivity.
  - vm_compute. reflexivity.
Defined.

(** A cache with a time to live of 0 calls [double] again at the very
    tick the value was stored. *)
Lemma cache_time_nonpositive_never_hits_witness :
  snd (snd (snd (Cache.cached (counted double) 21
                   (stored (Cache.init 0) 21 42 1, (1, 1%nat)))))
  = 2%nat.
Proof.
  apply (cache_time_nonpositive_never_hits double (Cache.init 0) 21 21 42 1 1 1%nat).
  - reflexivity.
  - vm_compute. discriminate.
  - vm_compute. discriminate.
Defined.

(** An entry put into the dictionary without creation time. *)
Lemma entry_without_creation_time_raises_witness :
  fst (Cache.clean_cache
         ({| Cache.cache_time := 60;
             Cache.cache := {[ 21 := {| CacheEntry.value := 42 : Z;
                                        CacheEntry.creation_time := None;
                                        CacheEntry.cache_time := 60 |} ]} |}, 0))
  = Err AttributeError
  /\ fst (Cache.cached double 21
            ({| Cache.cache_time := 60;
                Cache.cache := {[ 21 := {| CacheEntry.value := 42 : Z;
                                           CacheEntry.creation_time := None;
                                           CacheEntry.cache_time := 60 |} ]} |}, 0))
     = Err AttributeError.
Proof.
  destruct (entry_without_creation_time_raises double
              {| Cache.cache_time := 60;
                 Cache.cache := {[ 21 := {| CacheEntry.value := 42 : Z;
                                            CacheEntry.creation_time := None;
                                            CacheEntry.cache_time := 60 |} ]} |}
              21
              {| CacheEntry.value := 42 : Z;
                 CacheEntry.creation_time := None;
                 CacheEntry.cache_time := 60 |}
              0) as [Hclean Hcall]; [reflexivity | reflexivity |].
  split; [exact Hclean | now rewrite (Hcall 21 eq_refl)].
Defined.

End ResultCacheRuns.

(** ** Storage elements: bounds of the distance, shadowed hosts *)

Section StorageMore.
Import Py posixpath storage.

Lemma commonprefix_is_prefix_l (a b : string) :
  exists t, a = commonprefix a b +:+ t.
Proof.
  rewrite commonprefix_comm. apply commonprefix_is_prefix_r.
Qed.

(** X8. The distance is never positive, it is 0 exactly when the common
    prefix of the two locations has no ['/'], and no element is closer to
    an element than the element itself. *)
Theorem get_distance_bounds (a b : StorageElement) :
  get_distance a a <= get_distance a b <= 0
  /\ (get_distance a b = 0
      <-> count_char slash (commonprefix (location a) (location b)) = 0%nat).
Proof.
  unfold get_distance. rewrite commonprefix_diag.
  destruct (commonprefix_is_prefix_l (location a) (location b)) as [t Ht].
  assert (count_char slash (location a)
          = (count_char slash (commonprefix (location a) (location b))
             + count_char slash t)%nat) as Hcount.
  { rewrite Ht at 1. apply count_char_append. }
  split; [lia |]. split; lia.
Qed.

(** X9. [get_distance] cannot raise: the loop of [posixpath.commonprefix]
    reads the larger of the two locations only at indices it has, and
    returns their longest common prefix. *)
Theorem get_distance_commonprefix_total (a b : StorageElement) :
  commonprefix_impl (location a) (location b)
  = Some (commonprefix (location a) (location b))
  /\ get_distance a b
     = - Z.of_nat (count_char slash (commonprefix (location a) (location b))).
Proof.
  split; [apply commonprefix_impl_correct | reflexivity].
Qed.

Lemma contains_trans (path inner outer : string) :
  contains outer inner = true -> contains path outer = true ->
  contains path inner = true.
Proof.
  rewrite !contains_spec. intros [pre1 [post1 ->]] [pre2 [post2 ->]].
  exists (pre2 +:+ pre1), (post1 +:+ post2).
  now rewrite !append_assoc.
Qed.

(** In a registry the lookup never goes past an element whose host occurs
    in the path. *)
Lemma get_SE_by_path_in_bound (registry : list StorageElement) (path : string)
    (i : nat) (SE : StorageElement) :
  registry !! i = Some SE ->
  contains path (host SE) = true ->
  exists (k : nat) SE',
    (k <= i)%nat /\ registry !! k = Some SE'
    /\ get_SE_by_path_in registry path = Some SE'.
Proof.
  revert i. induction registry as [|SE0 rest IH]; intros i Hi Hhost;
    [discriminate |].
  cbn [get_SE_by_path_in].
  destruct (contains path (host SE0)) eqn:H0.
  - exists 0%nat, SE0. split; [lia |]. split; reflexivity.
  - destruct i as [|i]; cbn in Hi.
    + injection Hi as ->. congruence.
    + destruct (IH i Hi Hhost) as [k [SE' [Hk [Hl Hr]]]].
      exists (S k), SE'. split; [lia |]. split; assumption.
Qed.

(** X10. An element registered after an element whose host is a substring
    of its own host is shadowed: whenever its host occurs in a path, the
    lookup returns an element registered no later than the earlier one. *)
Theorem get_SE_by_path_shadowing (registry : list StorageElement) (path : string)
    (i j : nat) (SEi SEj : StorageElement) :
  registry !! i = Some SEi ->
  registry !! j = Some SEj ->
  (i < j)%nat ->
  contains (host SEj) (host SEi) = true ->
  contains path (host SEj) = true ->
  exists (k : nat) SE',
    (k <= i)%nat /\ registry !! k = Some SE'
    /\ get_SE_by_path_in registry path = Some SE'.
Proof.
  intros Hi Hj Hlt Hsub Hpath.
  apply (get_SE_by_path_in_bound registry path i SEi Hi).
  now apply (contains_trans path (host SEi) (host SEj)).
Qed.

End StorageMore.

(** A registry in which the host of the first element, a domain, is a
    substring of the host of the second: a locator at the second element
    resolves to the first. *)
Lemma get_SE_by_path_shadowing_witness :
  exists (k : nat) SE',
    (k <= 0)%nat
    /\ [ {| storage.name := "RAL-domain"; storage.host := "rl.ac.uk";
            storage.type := storage.disk; storage.location := "/europe/uk/ral";
            storage.basepath := "srm://rl.ac.uk" |};
         storage.RAL_LCG22_tape ] !! k = Some SE'
    /\ storage.get_SE_by_path_in
         [ {| storage.name := "RAL-domain"; storage.host := "rl.ac.uk";
              storage.type := storage.disk; storage.location := "/europe/uk/ral";
              storage.basepath := "srm://rl.ac.uk" |};
           storage.RAL_LCG22_tape ]
         "srm://srm-t2k.gridpp.rl.ac.uk/castor/ads.rl.ac.uk/prod/t2k.org/nd280/test"
       = Some SE'.
Proof.
  apply (get_SE_by_path_shadowing _ _ 0 1
           {| storage.name := "RAL-domain"; storage.host := "rl.ac.uk";
              storage.type := storage.disk; storage.location := "/europe/uk/ral";
              storage.basepath := "srm://rl.ac.uk" |}
           storage.RAL_LCG22_tape);
    [reflexivity | reflexivity | lia | reflexivity | reflexivity].
Defined.

(** ** Output shaping: repeated lines, lines to text and back *)

Section OutputShapeMore.
Import Py backends.
Context {S : Type}.

(** The generator of [_ignore_identical_lines], started after the line
    [last_line]. *)
Lemma ignore_identical_lines_from_spec (last_line : option string)
    (lines : list string) :
  no_repeats (_ignore_identical_lines_from last_line lines)
  /\ (forall x, hd_error (_ignore_identical_lines_from last_line lines) = Some x ->
        last_line <> Some x)
  /\ (forall x, In x (_ignore_identical_lines_from last_line lines) -> In x lines)
  /\ (forall x, In x lines ->
        In x (_ignore_identical_lines_from last_line lines) \/ last_line = Some x).
Proof.
  revert last_line. induction lines as [|line rest IH]; intros last_line.
  - cbn. repeat split; try easy.
  - cbn [_ignore_identical_lines_from].
    destruct (match last_line with
              | Some l => String.eqb line l
              | None => false
              end) eqn:Esame.
    + destruct last_line as [l|]; [|discriminate].
      apply String.eqb_eq in Esame. subst l.
      destruct (IH (Some line)) as [Hnr [Hhd [Hsub Hsup]]].
      repeat split; [exact Hnr | exact Hhd | |].
      * intros x Hx. right. now apply Hsub.
      * intros x [<-|Hx]; [now right | now apply Hsup].
    + destruct (IH (Some line)) as [Hnr [Hhd [Hsub Hsup]]].
      repeat split.
      * cbn [no_repeats].
        destruct (_ignore_identical_lines_from (Some line) rest) as [|b tail] eqn:Erest;
          [exact I |].
        split; [|exact Hnr]. intros ->. now apply (Hhd b).
      * intros x [= <-]. destruct last_line as [l|]; [|discriminate].
        intros [= ->]. now rewrite String.eqb_refl in Esame.
      * intros x [<-|Hx]; [now left | right; now apply Hsub].
      * intros x [<-|Hx]; [left; now left |].
        destruct (Hsup x Hx) as [Hin|[= ->]]; left; [now right | now left].
Qed.

Lemma ignore_identical_lines_from_id (last_line : option string)
    (lines : list string) :
  (forall x, hd_error lines = Some x -> last_line <> Some x) ->
  no_repeats lines ->
  _ignore_identical_lines_from last_line lines = lines.
Proof.
  revert last_line. induction lines as [|line rest IH]; intros last_line Hhd Hnr;
    [reflexivity |].
  cbn [_ignore_identical_lines_from].
  assert (match last_line with
          | Some l => String.eqb line l
          | None => false
          end = false) as ->.
  { destruct last_line as [l|]; [|reflexivity].
    apply String.eqb_neq. intros ->. now apply (Hhd l). }
  f_equal. apply IH.
  - intros x Hx [= ->]. destruct rest as [|b tail]; [discriminate |].
    cbn in Hx. injection Hx as ->. now destruct Hnr.
  - destruct rest; [exact I | now destruct Hnr].
Qed.

(** X11. In the output of [_ignore_identical_lines] no line equals the
    line before it, the output starts with the first line of the input,
    and the lines that occur in it are the lines that occur in the
    input. *)
Theorem ignore_identical_lines_no_repeats (lines : list string) :
  no_repeats (_ignore_identical_lines lines)
  /\ hd_error (_ignore_identical_lines lines) = hd_error lines
  /\ forall x, In x (_ignore_identical_lines lines) <-> In x lines.
Proof.
  unfold _ignore_identical_lines.
  destruct (ignore_identical_lines_from_spec None lines) as [Hnr [_ [Hsub Hsup]]].
  split; [exact Hnr |]. split.
  - now destruct lines.
  - intros x. split; [apply Hsub |]. intros Hx.
    now destruct (Hsup x Hx).
Qed.

(** X12. [_ignore_identical_lines] returns lines without repetitions
    unchanged; applying it twice is applying it once. *)
Theorem ignore_identical_lines_idempotent (lines : list string) :
  (no_repeats lines -> _ignore_identical_lines lines = lines)
  /\ _ignore_identical_lines (_ignore_identical_lines lines)
     = _ignore_identical_lines lines.
Proof.
  assert (forall l, no_repeats l -> _ignore_identical_lines l = l) as Hid.
  { intros l Hnr. apply ignore_identical_lines_from_id; [discriminate | exact Hnr]. }
  split; [apply Hid |].
  apply Hid. apply (ignore_identical_lines_from_spec None lines).
Qed.

Lemma split_char_body (c : ascii) (body rest : string) :
  count_char c body = 0%nat ->
  split_char c (body +:+ String c rest) = body :: split_char c rest.
Proof.
  induction body as [|d body IH]; intros Hfree.
  - cbn. now rewrite Ascii.eqb_refl.
  - cbn in Hfree. cbn [String.append split_char].
    destruct (Ascii.eqb d c); [discriminate |].
    now rewrite IH.
Qed.

Lemma split_char_lines (c : ascii) (bodies : list string) :
  Forall (fun body => count_char c body = 0%nat) bodies ->
  split_char c (concat_lines (map (fun body => body +:+ String c "") bodies))
  = (bodies ++ [""])%list.
Proof.
  induction 1 as [|body bodies Hbody _ IH]; [reflexivity |].
  cbn [map concat_lines]. rewrite append_assoc. cbn [String.append].
  rewrite split_char_body by exact Hbody. now rewrite IH.
Qed.

Lemma last_char_lines (c : ascii) (bodies : list string) :
  bodies <> [] ->
  last_char (concat_lines (map (fun body => body +:+ String c "") bodies)) = Some c.
Proof.
  induction bodies as [|body bodies IH]; [contradiction |]. intros _.
  cbn [map concat_lines].
  destruct bodies as [|body' bodies].
  - cbn [map concat_lines]. rewrite append_nil_r. apply last_char_append.
  - rewrite last_char_app_r; [apply IH; discriminate |].
    cbn [map concat_lines]. destruct body'; discriminate.
Qed.

(** X13. Lines to text and back: for a non-empty sequence of lines, each a
    text without line terminator followed by one, splitting the joined
    text yields exactly these lines. *)
Theorem join_then_split_lines (bodies : list string) :
  bodies <> [] ->
  Forall (fun body => count_char newline body = 0%nat) bodies ->
  exists text,
    (forall s : S,
       _iterable_output_from_iterable
         (ret (map (fun body => body +:+ String newline "") bodies)) ∅ s
       = (Ok (Text text), s))
    /\ _iterable_output_from_text (S := S) text (<["_iter" := PBool true]> ∅)
       = Ok (Iter (ret (map (fun body => body +:+ String newline "") bodies))).
Proof.
  intros Hsome Hfree. eexists. split; [intros s; apply from_iterable_join |].
  unfold _iterable_output_from_text, pop. rewrite lookup_insert_eq.
  cbn [default from_option id eq_bool Bool.eqb].
  rewrite last_char_lines by exact Hsome. rewrite Ascii.eqb_refl.
  rewrite split_char_lines by exact Hfree.
  unfold drop_last. now rewrite removelast_snoc.
Qed.

(** X14. A text that does not end with a line terminator: the empty text
    makes the split raise [IndexError], and a non-empty one comes back
    from the round trip with a line terminator appended. *)
Theorem split_unterminated_text (text : string) (s : S) :
  (text = "" -> split_then_join text s = (Err IndexError, s))
  /\ (forall c, last_char text = Some c -> c <> newline ->
        split_then_join text s = (Ok (Text (text +:+ String newline "")), s)).
Proof.
  split.
  - intros ->. reflexivity.
  - intros c. apply split_then_join_unterminated.
Qed.

End OutputShapeMore.

Section OutputShapeRuns.
Import Py backends.

(** Progress lines without a repetition are left alone, also when a line
    comes back later. *)
Lemma ignore_identical_lines_idempotent_witness :
  _ignore_identical_lines ["10%"; "20%"; "10%"] = ["10%"; "20%"; "10%"].
Proof.
  apply (proj1 (ignore_identical_lines_idempotent ["10%"; "20%"; "10%"])).
  cbn. repeat split; discriminate.
Defined.

(** The lines ["a\n"; "b\n"] survive the way through the text. *)
Lemma join_then_split_lines_witness :
  exists text,
    _iterable_output_from_text (S := unit) text (<["_iter" := PBool true]> ∅)
    = Ok (Iter (ret ["a" +:+ String newline ""; "b" +:+ String newline ""])).
Proof.
  destruct (join_then_split_lines (S := unit) ["a"; "b"])
    as [text [_ Hsplit]]; [discriminate | repeat constructor |].
  exists text. exact Hsplit.
Defined.

(** The empty text and the text ["a"]. *)
Lemma split_unterminated_text_witness :
  split_then_join (S := unit) "" tt = (Err IndexError, tt)
  /\ split_then_join (S := unit) "a" tt = (Ok (Text ("a" +:+ String newline "")), tt).
Proof.
  destruct (split_unterminated_text (S := unit) "" tt) as [Hempty _].
  destruct (split_unterminated_text (S := unit) "a" tt) as [_ Hgain].
  split; [apply Hempty; reflexivity | apply (Hgain "a"%char); [reflexivity | discriminate]].
Defined.

End OutputShapeRuns.

(** ** Listings and the directory test of the LCG backend *)

Section Listings.
Import Py backends.
Context {E : Env}.

(** X15. [LCGBackend._ls] tests [-d], not [d]: for a truth value or an
    integer as [directory] the flag [-d] is passed exactly when the value
    is true, and for any other value (None, a string, a list) the call
    raises [TypeError] before the command is run. *)
Theorem LCG_ls_directory_flag (path : string) (kw : kwargs) (g : G) :
  match default (PBool false) (kw !! "directory") with
  | PBool _ | PInt _ =>
      LCG_ls path kw g
      = sh_command "lfc-ls"
          ((if truthy (default (PBool false) (kw !! "long")) then ["-l"] else [])
           ++ (if truthy (default (PBool false) (kw !! "directory")) then ["-d"] else [])
           ++ [path])%list
          (delete "directory" (delete "long" kw)) g
  | _ => LCG_ls path kw g = (Err TypeError, g)
  end.
Proof.
  unfold LCG_ls, pop. rewrite lookup_delete_ne by discriminate.
  destruct (default (PBool false) (kw !! "directory")) as [|[|]|n|s|l];
    cbn [neg of_result truthy]; unfold bind, of_result; try reflexivity.
  - now destruct (truthy (default (PBool false) (kw !! "long"))).
  - cbn [truthy].
    assert ((- n =? 0) = (n =? 0)) as -> by (destruct n; reflexivity).
    destruct (n =? 0), (truthy (default (PBool false) (kw !! "long"))); reflexivity.
Qed.

Lemma lstrip_head (s : string) :
  lstrip s = "" \/ exists c r, lstrip s = String c r /\ is_space c = false.
Proof.
  induction s as [|c s IH]; [now left |].
  cbn [lstrip]. destruct (is_space c) eqn:Ec; [exact IH |].
  right. now exists c, s.
Qed.

Lemma strip_head (s : string) :
  match lstrip s with
  | "" => strip s = ""
  | String c _ => exists r, strip s = String c r
  end.
Proof.
  unfold strip. destruct (lstrip_head s) as [->|[c [r [-> Hc]]]]; [reflexivity |].
  cbn [rstrip]. rewrite Hc. destruct (rstrip r); eauto.
Qed.

(** X16. The directory test of the LCG backend, read off the command: a
    non-zero exit status of [lfc-ls -l -d] is raised as [ErrorReturnCode],
    an output of white space only raises [IndexError], and otherwise the
    test is whether the first character of the output that is not white
    space is [d]. *)
Theorem LCG_is_dir_of_listing (base path : string) (g g' : G)
    (lines : list string) (code : Z) :
  tool "lfc-ls" ["-l"; "-d"; path] ∅ g = (lines, code, g') ->
  _is_dir (B := LCGBackend base) path g
  = (if code =? 0
     then match lstrip (concat_lines lines) with
          | "" => Err IndexError
          | String c _ => Ok (Ascii.eqb c "d")
          end
     else Err (ErrorReturnCode code ""),
     g').
Proof.
  intros Htool. unfold _is_dir. cbn [_ls LCGBackend].
  unfold LCG_ls, pop.
  assert (delete "directory"
            (delete "long" (<["long" := PBool true]> (<["directory" := PBool true]> ∅)))
          = (∅ : kwargs)) as Hkw by reflexivity.
  rewrite lookup_insert_eq, Hkw.
  rewrite lookup_delete_ne, lookup_insert_ne, lookup_insert_eq by discriminate.
  cbn [default from_option id neg truthy app].
  unfold sh_command, run_command, ok_codes. rewrite !lookup_empty.
  cbn [default from_option id truthy].
  unfold bind, of_result, ret. cbn [truthy Z.eqb negb app].
  rewrite Htool. cbn [existsb]. rewrite orb_false_r.
  destruct (code =? 0); [|reflexivity].
  cbn [to_text]. unfold ret.
  pose proof (strip_head (concat_lines lines)) as Hhead.
  destruct (lstrip (concat_lines lines)) as [|c r].
  - now rewrite Hhead.
  - destruct Hhead as [r' ->]. reflexivity.
Qed.

End Listings.

(** On the small grid [/grid/t2k.org/data] is a directory and
    [/grid/t2k.org/data/a.txt] is not. *)
Lemma LCG_is_dir_of_listing_witness :
  backends._is_dir (E := Examples.demo_env 1) (B := backends.LCGBackend "/t2k.org")
    "/grid/t2k.org/data" tt = (Py.Ok true, tt)
  /\ backends._is_dir (E := Examples.demo_env 1) (B := backends.LCGBackend "/t2k.org")
       "/grid/t2k.org/data/a.txt" tt = (Py.Ok false, tt).
Proof.
  split.
  - etransitivity;
      [exact (LCG_is_dir_of_listing (E := Examples.demo_env 1) "/t2k.org"
                "/grid/t2k.org/data" tt tt _ 0 eq_refl) | reflexivity].
  - etransitivity;
      [exact (LCG_is_dir_of_listing (E := Examples.demo_env 1) "/t2k.org"
                "/grid/t2k.org/data/a.txt" tt tt _ 0 eq_refl) | reflexivity].
Defined.

(** ** More on [replicate] *)

Section ReplicateMore.
Import Py storage backends.
Context {E : Env} {B : Backend}.

(** One step of a run: the next bound computation is the one [H] gives
    the result of. *)
Ltac step_with H :=
  unfold bind at 1; cbn [grid replicate_calls fst snd];
  rewrite H; cbn [grid replicate_calls fst snd].

(** X17. A recursive replication of a directory asked for with [_iter]
    returns an iterable as soon as the directory has been listed: no
    call of the raw replicate primitive has been made by then. Consuming
    the iterable gives what the same call without [_iter] gives. *)
Theorem replicate_directory_lazy (fuel : nat) (dir destination : string)
    (source : option string) (tape : bool) (recursive : recursive_arg)
    (rx : option regex) (kw : kwargs) (elements : list string)
    (w : World) (g0 g1 : G) :
  recursion_mode recursive = Ok (rx, true) ->
  _is_dir (full_path dir) (grid w) = (Ok true, g0) ->
  (listing <- ls dir (<["_iter" := PBool true]> ∅) ;; iterate listing) g0
  = (Ok elements, g1) ->
  eq_bool (default (PBool false) (kw !! "_iter")) true = true ->
  exists it,
    replicate (S fuel) dir destination source tape recursive kw w
    = (Ok (Iter it), {| grid := g1; replicate_calls := replicate_calls w |})
    /\ to_text (Iter it) {| grid := g1; replicate_calls := replicate_calls w |}
       = consume (replicate (S fuel) dir destination source tape recursive
                    (delete "_iter" kw)) w.
Proof.
  intros Hmode Hdir Hls Hit.
  destruct w as [g calls]. cbn [grid replicate_calls] in *.
  eexists. split.
  - cbn [replicate]. unfold of_result, on_grid, pop.
    unfold bind at 1. rewrite Hmode. cbn [fst snd descends grid replicate_calls].
    step_with Hdir. step_with Hls.
    unfold _iterable_output_from_iterable, pop. rewrite lookup_insert_eq.
    cbn [default from_option id]. rewrite Hit. reflexivity.
  - symmetry. cbn [replicate]. unfold consume, of_result, on_grid, pop.
    unfold bind at 1 2. rewrite Hmode. cbn [fst snd descends grid replicate_calls].
    step_with Hdir. step_with Hls.
    rewrite delete_delete_eq, lookup_delete_eq.
    unfold _iterable_output_from_iterable, pop. rewrite lookup_insert_eq.
    cbn [default from_option id eq_bool Bool.eqb to_text].
    unfold bind, ret.
    destruct (chain_from_iterable _ _) as [[lines|e] w']; reflexivity.
Qed.

(** X18. Without descent (no recursion asked for, or the path is not a
    directory) [replicate] calls the raw replicate primitive at most
    once, and only after the destination storage element was found, was
    seen to hold no replica, and a source replica was resolved; the one
    call copies that replica to the path of the file on the destination
    element, with the options of the caller. *)
Theorem replicate_leaf_call_needs_source (fuel : nat)
    (remotepath destination : string) (source : option string) (tape : bool)
    (recursive : recursive_arg) (rx : option regex) (rec : bool) (kw : kwargs)
    (w w' : World) (g0 : G) (r : result (output World)) :
  recursion_mode recursive = Ok (rx, rec) ->
  descends rec (full_path remotepath) (grid w) = (Ok false, g0) ->
  replicate (S fuel) remotepath destination source tape recursive kw w = (r, w') ->
  replicate_calls w' = replicate_calls w
  \/ exists dst src replica g1 g2 g3 g4,
       get_SE destination g0 = (Ok (Some dst), g1)
       /\ has_replica dst remotepath g1 = (Ok false, g2)
       /\ resolve_source dst remotepath source tape g2 = (Ok src, g3)
       /\ get_replica src remotepath g3 = (Ok replica, g4)
       /\ replicate_calls w'
          = (replicate_calls w
             ++ [(replica, get_storage_path dst remotepath, kw)])%list.
Proof.
  intros Hmode Hdesc Hrun.
  destruct w as [g calls]. cbn [grid replicate_calls] in *.
  cbn [replicate] in Hrun. unfold of_result, on_grid in Hrun.
  unfold bind at 1 2 in Hrun. rewrite Hmode in Hrun.
  cbn [fst snd grid replicate_calls] in Hrun. rewrite Hdesc in Hrun.
  unfold bind at 1 in Hrun. cbn [grid replicate_calls] in Hrun.
  destruct (get_SE destination g0) as [[[dst|]|e] g1] eqn:Hdst;
    try (injection Hrun as <- <-; now left).
  unfold bind at 1 in Hrun. cbn [grid replicate_calls] in Hrun.
  destruct (has_replica dst remotepath g1) as [[[|]|e] g2] eqn:Hheld;
    try (injection Hrun as <- <-; now left).
  unfold bind at 1 in Hrun. cbn [grid replicate_calls] in Hrun.
  destruct (resolve_source dst remotepath source tape g2) as [[src|e] g3] eqn:Hsrc;
    try (injection Hrun as <- <-; now left).
  unfold bind at 1 in Hrun. cbn [grid replicate_calls] in Hrun.
  destruct (get_replica src remotepath g3) as [[replica|e] g4] eqn:Hrep;
    try (injection Hrun as <- <-; now left).
  unfold call_replicate, record_replicate, on_grid, bind, ret in Hrun.
  cbn [grid replicate_calls] in Hrun.
  right. exists dst, src, replica, g1, g2, g3, g4.
  repeat split; try assumption; try reflexivity.
  destruct (_replicate replica (get_storage_path dst remotepath) kw g4)
    as [[out|e] g5]; injection Hrun as <- <-; reflexivity.
Qed.

(** X19. Accepting every exit status of the children's transfers does
    not cover the errors raised before a transfer: when the first
    selected child of a directory is a file whose source replica cannot
    be resolved, the error of that lookup ends the whole recursive
    replication, and no transfer is made, neither for this child nor for
    the ones after it. *)
Theorem replicate_batch_aborted_by_lookup (fuel : nat) (dir destination : string)
    (dst : StorageElement) (source : option string) (tape : bool)
    (recursive : recursive_arg) (rx : option regex) (kw : kwargs)
    (elements : list string) (child : string) (children : list string)
    (e : exn) (w : World) :
  recursion_mode recursive = Ok (rx, true) ->
  directory_of dir elements ->
  newpaths_of dir rx elements = child :: children ->
  kw !! "_ok_code" = None ->
  (forall g,
     _is_dir (full_path child) g = (Ok false, g)
     /\ get_SE destination g = (Ok (Some dst), g)
     /\ has_replica dst child g = (Ok false, g)
     /\ resolve_source dst child source tape g = (Err e, g)) ->
  consume (replicate (S (S fuel)) dir destination source tape recursive kw) w
  = (Err e, w).
Proof.
  intros Hmode Hdir Hsel Hkw Hchild.
  destruct w as [g calls]. destruct (Hdir g) as [Hisdir Hls].
  destruct (Hchild g) as [Hfile [Hdst [Habsent Hsrc]]].
  remember (S fuel) as f eqn:Ef.
  cbn [replicate]. unfold consume, of_result, on_grid, pop.
  unfold bind at 1 2. rewrite Hmode. cbn [fst snd descends grid replicate_calls].
  step_with Hisdir. step_with Hls.
  rewrite lookup_delete_ne by discriminate. rewrite Hkw, Hsel.
  assert (replicate f child destination source tape (RecBool true)
            (child_kwargs (delete "_iter" kw)) {| grid := g; replicate_calls := calls |}
          = (Err e, {| grid := g; replicate_calls := calls |})) as Hfirst.
  { subst f. cbn [replicate recursion_mode]. unfold of_result, on_grid.
    unfold bind at 1 2. cbn [fst snd descends grid replicate_calls].
    step_with Hfile. step_with Hdst. step_with Habsent. step_with Hsrc.
    reflexivity. }
  unfold _iterable_output_from_iterable, pop. rewrite lookup_insert_eq.
  cbn [default from_option id map chain_from_iterable].
  destruct (eq_bool (from_option id (PBool false) (kw !! "_iter")) true);
    unfold bind, ret; cbn [to_text]; unfold bind; now rewrite Hfirst.
Qed.

End ReplicateMore.

Section ReplicateFile.
Import Py storage backends.
Context {E : Env} (base : string).


End ReplicateFile.

Section ReplicateRuns.
Import Py storage backends Examples.

(** On the small grid the recursive replication of [/data] with [_iter]
    returns before any transfer. *)
Lemma replicate_directory_lazy_witness :
  exists it,
    replicate (E := demo_env 1) (B := LCGBackend "/t2k.org")
      2 "/data" "JP-KEK-CRC-02-disk" None false (RecBool true)
      (<["_iter" := PBool true]> ∅) (demo_world 1)
    = (Ok (Iter it), demo_world 1)
    /\ to_text (Iter it) (demo_world 1)
       = consume
           (replicate (E := demo_env 1) (B := LCGBackend "/t2k.org")
              2 "/data" "JP-KEK-CRC-02-disk" None false (RecBool true)
              (delete "_iter" (<["_iter" := PBool true]> ∅)))
           (demo_world 1).
Proof.
  apply (replicate_directory_lazy (E := demo_env 1) (B := LCGBackend "/t2k.org")
           1 "/data" "JP-KEK-CRC-02-disk" None false (RecBool true) None
           (<["_iter" := PBool true]> ∅)
           ["a.txt" +:+ String newline ""; "b.txt" +:+ String newline ""]
           (demo_world 1) tt tt); reflexivity.
Defined.

(** On the small grid the replication of [/data/b.txt] makes its one
    call of the raw primitive. *)
Lemma replicate_leaf_call_needs_source_witness :
  let run :=
    replicate (E := demo_env 1) (B := LCGBackend "/t2k.org")
      1 "/data/b.txt" "JP-KEK-CRC-02-disk" None false (RecBool false) ∅
      (demo_world 1) in
  replicate_calls (snd run) = replicate_calls (demo_world 1)
  \/ exists dst src replica g1 g2 g3 g4,
       get_SE (Env := demo_env 1) "JP-KEK-CRC-02-disk" tt = (Ok (Some dst), g1)
       /\ has_replica dst "/data/b.txt" g1 = (Ok false, g2)
       /\ resolve_source dst "/data/b.txt" None false g2 = (Ok src, g3)
       /\ get_replica src "/data/b.txt" g3 = (Ok replica, g4)
       /\ replicate_calls (snd run)
          = (replicate_calls (demo_world 1)
             ++ [(replica, get_storage_path dst "/data/b.txt", ∅)])%list.
Proof.
  intros run.
  apply (replicate_leaf_call_needs_source (E := demo_env 1)
           (B := LCGBackend "/t2k.org")
           0 "/data/b.txt" "JP-KEK-CRC-02-disk" None false (RecBool false) None false
           ∅ (demo_world 1) (snd run) tt (fst run)); reflexivity.
Defined.

(** On the small grid a recursive replication of [/data] from a storage
    element that does not exist ends with the error of the lookup. *)
Lemma replicate_batch_aborted_by_lookup_witness :
  demo_replicate 1 2 (Some "nowhere") false (RecBool true) ∅
  = (Err (ErrorReturnCode 1
            ("Could not find storage element nowhere." +:+ String newline "")),
     demo_world 1).
Proof.
  apply (replicate_batch_aborted_by_lookup (E := demo_env 1)
           (B := LCGBackend "/t2k.org")
           0 "/data" "JP-KEK-CRC-02-disk" JP_KEK_CRC_02_disk (Some "nowhere") false
           (RecBool true) None ∅
           ["a.txt" +:+ String newline ""; "b.txt" +:+ String newline ""]
           "/data/a.txt" ["/data/b.txt"]).
  - reflexivity.
  - intros []. split; reflexivity.
  - reflexivity.
  - reflexivity.
  - intros []. repeat split; reflexivity.
Defined.


End ReplicateRuns.

(** ** Full paths *)

Section FullPaths.
Import Py backends.
Context {E : Env}.

Lemma split_char_parts_free (c : ascii) (s : string) :
  Forall (fun part => count_char c part = 0%nat) (split_char c s).
Proof.
  induction s as [|d s IH]; cbn [split_char].
  - now repeat constructor.
  - destruct (Ascii.eqb d c) eqn:Edc.
    + constructor; [reflexivity | exact IH].
    + destruct (split_char c s) as [|h t]; cbn.
      * repeat constructor. cbn. now rewrite Edc.
      * inversion IH as [|? ? Hh Ht]; subst. constructor; [|exact Ht].
        cbn. now rewrite Edc.
Qed.

Lemma plain_name_eqb (s : string) :
  plain_name s ->
  String.eqb s "" = false /\ String.eqb s "." = false /\ String.eqb s ".." = false.
Proof.
  intros [Hne [Hdot [Hup _]]]. repeat split; now apply String.eqb_neq.
Qed.

Lemma Forall_removelast {A} (P : A -> Prop) (l : list A) :
  Forall P l -> Forall P (removelast l).
Proof.
  induction 1 as [|a l Ha Hl IH]; cbn; [constructor |].
  destruct l; [constructor | constructor; assumption].
Qed.

Lemma Forall_last {A} (P : A -> Prop) (l : list A) (d : A) :
  Forall P l -> l <> [] -> P (List.last l d).
Proof.
  induction 1 as [|a l Ha Hl IH]; intros Hne; [contradiction |].
  destruct l as [|b l]; [exact Ha |].
  change (P (List.last (b :: l) d)). apply IH. discriminate.
Qed.

(** The loop of [normpath] on an absolute path keeps only plain names. *)
Lemma normpath_fold_plain (n : nat) (parts acc : list string) :
  n <> 0%nat ->
  Forall (fun part => count_char slash part = 0%nat) parts ->
  Forall plain_name acc ->
  Forall plain_name (fold_left (normpath_step n) parts acc).
Proof.
  intros Hn Hparts. revert acc.
  induction Hparts as [|part parts Hpart _ IH]; intros acc Hacc; [exact Hacc |].
  cbn [fold_left]. apply IH. unfold normpath_step.
  destruct (String.eqb part "") eqn:Eempty; [exact Hacc |].
  destruct (String.eqb part ".") eqn:Edot; [exact Hacc |].
  cbn [orb]. destruct (String.eqb part "..") eqn:Eup; cbn [negb orb].
  - apply String.eqb_eq in Eup. subst part.
    destruct (Nat.eqb n 0) eqn:En; [apply Nat.eqb_eq in En; contradiction |].
    cbn [andb orb].
    destruct (Nat.eqb (length acc) 0) eqn:Elen; cbn [negb andb].
    + now apply Forall_removelast.
    + assert (acc <> []) as Hne by (intros ->; discriminate).
      pose proof (Forall_last plain_name acc "" Hacc Hne) as [_ [_ [Hlast _]]].
      apply String.eqb_neq in Hlast. rewrite Hlast.
      now apply Forall_removelast.
  - apply Forall_app. split; [exact Hacc |].
    repeat constructor; try (now apply String.eqb_neq). exact Hpart.
Qed.

(** X21. The path that the LCG backend hands to its tools is canonical:
    for every base directory and every relative path, [full_path] is a
    slash followed by names joined with single slashes, none of them
    empty, [.] or [..] (so there is no doubled or trailing slash). *)
Theorem LCG_full_path_canonical (base relpath : string) :
  exists names,
    full_path (B := LCGBackend base) relpath = "/" +:+ String.concat "/" names
    /\ Forall plain_name names.
Proof.
  unfold full_path. cbn [basedir LCGBackend].
  exists (fold_left (normpath_step 1) (split_char slash ("/grid" +:+ base +:+ relpath)) []).
  split.
  - unfold normpath. cbn.
    destruct (base +:+ relpath); reflexivity.
  - apply normpath_fold_plain; [discriminate | apply split_char_parts_free | constructor].
Qed.

(** X22. [full_path] does not confine a path to the base directory: with
    the LCG backend and a base directory of one name, a relative path
    that starts with [/../../] is resolved from the root of the
    catalogue, above [/grid]. *)
Theorem full_path_leaves_basedir (b x : string) :
  plain_name b ->
  startswith x "/" = false ->
  full_path (B := LCGBackend ("/" +:+ b)) ("/../../" +:+ x) = normpath ("/" +:+ x).
Proof.
  intros Hb Hx. destruct (plain_name_eqb b Hb) as [Hb0 [Hb1 Hb2]].
  destruct Hb as [_ [_ [_ Hfree]]].
  unfold full_path. cbn [basedir LCGBackend].
  assert (("/grid" +:+ "/" +:+ b) +:+ "/../../" +:+ x
          = "" +:+ String slash ("grid" +:+ String slash
              (b +:+ String slash (".." +:+ String slash (".." +:+ String slash x)))))
    as ->.
  { rewrite !append_assoc. reflexivity. }
  assert ("/" +:+ x = "" +:+ String slash x) as -> by reflexivity.
  unfold normpath.
  assert (forall r, String.eqb ("" +:+ String slash r) "" = false) as Hne
    by reflexivity.
  rewrite !Hne.
  assert (startswith ("" +:+ String slash x) "/" = true) as ->
    by (cbn; now destruct x).
  assert (startswith ("" +:+ String slash x) "//" = false) as ->
    by (cbn; exact Hx).
  assert (forall r, startswith ("" +:+ String slash ("grid" +:+ r)) "/" = true) as ->
    by reflexivity.
  assert (forall r, startswith ("" +:+ String slash ("grid" +:+ r)) "//" = false) as ->
    by reflexivity.
  cbn [andb].
  rewrite !split_char_body by (try reflexivity; exact Hfree).
  cbn [fold_left]. change (normpath_step 1 [] "") with (@nil string).
  assert (normpath_step 1
            (normpath_step 1 (normpath_step 1 (normpath_step 1 [] "grid") b) "..") ".."
          = []) as ->; [|reflexivity].
  unfold normpath_step.
  cbn [String.eqb Ascii.eqb Bool.eqb orb andb negb length Nat.eqb app List.last removelast].
  rewrite Hb0, Hb1, Hb2.
  cbn [String.eqb Ascii.eqb Bool.eqb orb andb negb length Nat.eqb app List.last removelast].
  rewrite Hb2. reflexivity.
Qed.

End FullPaths.

(** The parent of the parent of [/t2k.org] is the root of the catalogue. *)
Lemma full_path_leaves_basedir_witness :
  backends.full_path (E := Examples.demo_env 1) (B := backends.LCGBackend "/t2k.org")
    "/../../other/data" = "/other/data".
Proof.
  etransitivity;
    [apply (full_path_leaves_basedir (E := Examples.demo_env 1) "t2k.org" "other/data");
       [repeat split; discriminate | reflexivity]
    | reflexivity].
Defined.

(** ** The state and the checksum of a replica *)

Section ReplicaFields.
Import Py storage backends.
Context {E : Env}.

(** The words of a text hold no white space, and none is empty. *)
Lemma split_ws_from_spec (s : string) :
  Forall (fun c => is_space c = false) (list_ascii_of_string (fst (split_ws_from s)))
  /\ Forall (fun word =>
               word <> ""
               /\ Forall (fun c => is_space c = false) (list_ascii_of_string word))
       (snd (split_ws_from s)).
Proof.
  induction s as [|c s [IHword IHwords]]; cbn [split_ws_from].
  - split; constructor.
  - destruct (split_ws_from s) as [word words]. cbn [fst snd] in *.
    destruct (is_space c) eqn:Ec; cbn [fst snd list_ascii_of_string].
    + split; [constructor |].
      destruct word; [exact IHwords |].
      constructor; [split; [discriminate | exact IHword] | exact IHwords].
    + split; [constructor; assumption | exact IHwords].
Qed.

Lemma split_ws_spec (s : string) :
  Forall (fun word =>
            word <> ""
            /\ Forall (fun c => is_space c = false) (list_ascii_of_string word))
    (split_ws s).
Proof.
  unfold split_ws. pose proof (split_ws_from_spec s) as [Hword Hwords].
  destruct (split_ws_from s) as [word words]. cbn [fst snd] in *.
  destruct word; [exact Hwords |].
  constructor; [split; [discriminate | exact Hword] | exact Hwords].
Qed.

(** A word is its own only word. *)
Lemma split_ws_word (word : string) :
  word <> "" ->
  Forall (fun c => is_space c = false) (list_ascii_of_string word) ->
  split_ws word = [word].
Proof.
  intros Hne Hfree.
  assert (split_ws_from word = (word, [])) as Hfrom.
  { clear Hne. induction word as [|c word IH]; [reflexivity |].
    cbn [list_ascii_of_string] in Hfree. inversion Hfree as [|? ? Hc Hrest]; subst.
    cbn [split_ws_from]. now rewrite (IH Hrest), Hc. }
  unfold split_ws. rewrite Hfrom. destruct word; [contradiction | reflexivity].
Qed.

Lemma split_ws_words (s word : string) :
  In word (split_ws s) -> split_ws word = [word].
Proof.
  intros Hin. pose proof (split_ws_spec s) as Hall.
  rewrite List.Forall_forall in Hall. destruct (Hall word Hin) as [Hne Hfree].
  now apply split_ws_word.
Qed.

(** A command called without [_iter], inside [try ... except
    sh.ErrorReturnCode]: the text of its output, or the fallback. *)
Lemma except_sh_command (cmd : string) (args : list string) (kw : kwargs)
    (fallback : string) (g g' : G) (lines : list string) (code : Z) :
  tool cmd args (delete "_iter" kw) g = (lines, code, g') ->
  (listing <- except_ErrorReturnCode (sh_command cmd args (delete "_iter" kw))
                (Text fallback) ;;
   to_text listing) g
  = (Ok (if existsb (Z.eqb code) (ok_codes (delete "_iter" kw))
         then concat_lines lines else fallback), g').
Proof.
  intros Htool.
  unfold sh_command, except_ErrorReturnCode, run_command, bind, ret.
  rewrite lookup_delete_eq. cbn [default from_option id truthy].
  rewrite Htool. destruct (existsb _ _); reflexivity.
Qed.

(** X23. [LCGBackend._replica_checksum] never raises: whatever the path,
    the options and the behaviour of [lcg-get-checksum] (a refused exit
    status, an empty output), it returns one word: a text that is not
    empty and holds no white space. *)
Theorem LCG_replica_checksum_total (storagepath : string) (kw : kwargs) (g : G) :
  exists checksum g',
    LCG_replica_checksum storagepath kw g = (Ok checksum, g')
    /\ split_ws checksum = [checksum].
Proof.
  destruct (tool "lcg-get-checksum" [strip storagepath] (delete "_iter" kw) g)
    as [[lines code] g'] eqn:Htool.
  pose proof (except_sh_command _ _ _ "? -" _ _ _ _ Htool) as Hrun.
  unfold LCG_replica_checksum, pop.
  rewrite <- bind_assoc. unfold bind at 1. rewrite Hrun. unfold ret.
  eexists _, g'. split; [reflexivity |].
  set (text := if existsb (Z.eqb code) (ok_codes (delete "_iter" kw))
               then concat_lines lines else "? -").
  destruct (split_ws text) as [|word rest] eqn:Ewords; [reflexivity |].
  apply (split_ws_words text). rewrite Ewords. now left.
Qed.

(** X24. [LCGBackend._replica_state] never raises [ErrorReturnCode]: a
    refused exit status of [lcg-ls -l] gives the state [?]. When the
    status is accepted the state is the sixth word of the output, and an
    output of fewer than six words raises [IndexError]. *)
Theorem LCG_replica_state_cases (storagepath : string) (kw : kwargs) (g g' : G)
    (lines : list string) (code : Z) :
  tool "lcg-ls" ["-l"; strip storagepath] (delete "_iter" kw) g = (lines, code, g') ->
  let accepted := existsb (Z.eqb code) (ok_codes (delete "_iter" kw)) in
  let words := split_ws (concat_lines lines) in
  (accepted = false -> LCG_replica_state storagepath kw g = (Ok "?", g'))
  /\ (accepted = true -> (length words < 6)%nat ->
      LCG_replica_state storagepath kw g = (Err IndexError, g'))
  /\ (accepted = true -> (6 <= length words)%nat ->
      exists state,
        LCG_replica_state storagepath kw g = (Ok state, g')
        /\ nth_error words 5 = Some state
        /\ split_ws state = [state]).
Proof.
  intros Htool accepted words.
  pose proof (except_sh_command _ _ _ "- - - - - ?" _ _ _ _ Htool) as Hrun.
  fold accepted in Hrun.
  assert (LCG_replica_state storagepath kw g
          = match nth_error (split_ws (if accepted then concat_lines lines
                                       else "- - - - - ?")) 5 with
            | Some state => (Ok state, g')
            | None => (Err IndexError, g')
            end) as Hstate.
  { unfold LCG_replica_state, pop.
    rewrite <- bind_assoc. unfold bind at 1. rewrite Hrun.
    destruct (nth_error _ 5); reflexivity. }
  rewrite Hstate. repeat split.
  - intros ->. reflexivity.
  - intros -> Hshort. fold words.
    now rewrite (proj2 (nth_error_None words 5)) by lia.
  - intros -> Hlong. fold words.
    destruct (nth_error words 5) as [state|] eqn:Estate.
    + exists state. repeat split.
      apply (split_ws_words (concat_lines lines)). fold words.
      eapply nth_error_In. exact Estate.
    + apply nth_error_None in Estate. lia.
Qed.

End ReplicaFields.

Section ReplicaLines.
Import Py storage backends.
Context {E : Env} {R : ReplicaBackend}.

Lemma length_spaces (n : nat) : String.length (spaces n) = n.
Proof. induction n as [|n IH]; cbn; [reflexivity | now rewrite IH]. Qed.

Lemma length_ljust (n : nat) (s : string) :
  String.length (ljust n s) = Nat.max n (String.length s).
Proof. unfold ljust. rewrite length_append, length_spaces. lia. Qed.

Lemma length_substring_0 (n : nat) (s : string) :
  String.length (String.substring 0 n s) = Nat.min n (String.length s).
Proof.
  revert n. induction s as [|c s IH]; intros [|n]; cbn; try reflexivity.
  now rewrite IH.
Qed.

Lemma length_rjust_cut (n : nat) (s : string) :
  String.length (rjust_cut n s) = n.
Proof.
  unfold rjust_cut. rewrite length_append, length_spaces, length_substring_0. lia.
Qed.

Lemma get_SE_by_path_registered (rep : string) (SE : StorageElement) :
  get_SE_by_path rep = Some SE -> In SE SEs.
Proof.
  unfold get_SE_by_path. generalize SEs. intros registry.
  induction registry as [|SE' registry IH]; cbn; [discriminate |].
  destruct (contains rep (host SE')).
  - intros [= ->]. now left.
  - intros Hrest. right. now apply IH.
Qed.

(** The line made of a name of at most 32 characters and a type of at
    most four. *)
Lemma replica_info_line_layout (name type state checksum rep : string) :
  (String.length name <= 32)%nat ->
  (String.length type <= 4)%nat ->
  exists head,
    replica_info_line name type state checksum rep = head +:+ rep
    /\ String.length head = (48 + Nat.max 7 (String.length state))%nat.
Proof.
  intros Hname Htype. unfold replica_info_line.
  exists (ljust 32 name +:+ " " +:+ ljust 4 type +:+ " " +:+ ljust 7 state +:+ " "
          +:+ rjust_cut 8 checksum +:+ " ").
  split.
  - now rewrite !append_assoc.
  - rewrite !length_append, !length_ljust, length_rjust_cut. cbn [String.length]. lia.
Qed.

(** X25. The layout of a line of the long listing of replicas, for every
    replica path, of a registered storage element or not: the line ends
    with the path as it was given, and the path starts at column
    [48 + max 7 n] where [n] is the length of the state, the checksum
    taking exactly eight columns. The columns of the listing line up as
    long as no state has more than seven characters. *)
Theorem add_replica_info_layout (rep state checksum : string) (g g1 g2 : G) :
  _replica_state rep ∅ g = (Ok state, g1) ->
  _replica_checksum rep ∅ g1 = (Ok checksum, g2) ->
  exists head,
    _add_replica_info rep g = (Ok (head +:+ rep), g2)
    /\ String.length head = (48 + Nat.max 7 (String.length state))%nat.
Proof.
  intros Hstate Hsum. unfold _add_replica_info.
  destruct (get_SE_by_path rep) as [SE|] eqn:ESE.
  - destruct (replica_info_line_layout (name SE) (type_name (type SE))
                state checksum rep) as [head [Hline Hlen]].
    + apply get_SE_by_path_registered in ESE.
      repeat (destruct ESE as [<-|ESE]; [cbn; lia |]). destruct ESE.
    + destruct (type SE); cbn; lia.
    + exists head. split; [|exact Hlen].
      unfold bind, ret. now rewrite Hstate, Hsum, Hline.
  - destruct (replica_info_line_layout "UNKNOWN" "?" state checksum rep)
      as [head [Hline Hlen]]; [cbn; lia | cbn; lia |].
    exists head. split; [|exact Hlen].
    unfold bind, ret. now rewrite Hstate, Hsum, Hline.
Qed.

End ReplicaLines.

Section ReplicaRuns.
Import Py storage backends Examples.

(** The state of a replica that [lcg-ls] describes. *)
Lemma LCG_replica_state_cases_witness :
  LCG_replica_state (E := replica_env) replica_line ∅ tt = (Ok "ONLINE", tt).
Proof.
  destruct (LCG_replica_state_cases (E := replica_env) replica_line ∅ tt tt _ 0 eq_refl)
    as [_ [_ Hlong]].
  destruct (Hlong eq_refl) as [state [Hrun [Hnth _]]]; [vm_compute; lia |].
  vm_compute in Hnth. injection Hnth as <-. exact Hrun.
Defined.

(** The line of the long listing for a replica at RAL: the path starts
    at column 55. *)
Lemma add_replica_info_layout_witness :
  exists head,
    _add_replica_info (E := replica_env) (R := LCGReplicaBackend) replica_line tt
    = (Ok (head +:+ replica_line), tt)
    /\ String.length head = 55%nat.
Proof.
  apply (add_replica_info_layout (E := replica_env) (R := LCGReplicaBackend)
           replica_line "ONLINE" "529506c1" tt tt tt); reflexivity.
Defined.

End ReplicaRuns.
